(** * UVM variant 21: bit-field codec, assembler and interpreter

    A shallow embedding of [src/utils.py], [src/assembler.py] and
    [src/interpreter.py], followed by the properties of the instruction
    codec and of the execution engine.

    Python integers are unbounded and signed: they are [Z].  Python lists
    used as arrays ([regs], [mem]) are [list Z] read with stdpp's lookup and
    written with stdpp's insert, with Python's own out-of-range behaviour
    written out.  Exceptions are values of [exn]; one constructor per
    [raise] site of the sources, so that two raises of the same Python class
    stay distinguishable. *)

From Stdlib Require Import ZArith List String Ascii Strings.Byte Lia Bool.
From stdpp Require Import base tactics option list numbers strings gmap.

Local Open Scope Z_scope.

(* ===================================================================== *)
(** * Python runtime: exceptions and integer primitives                   *)
(* ===================================================================== *)

Module Py.

(** The exception classes the sources raise or let escape. *)
Inductive pyclass : Type :=
| ClsValueError | ClsIndexError | ClsMemoryError | ClsKeyError
| ClsZeroDivisionError | ClsOverflowError.

(** One constructor per raise site. *)
Inductive exn : Type :=
| ValueError_negative_shift
    (* [a << n] or [a >> n] with [n < 0] *)
| ValueError_int_literal (s : string)
    (* [int(s)] on a string that is no integer literal *)
| ValueError_alignment
    (* interpreter.py:42, "Binary length must be multiple of 4 bytes" *)
| ValueError_unknown_opcode (A : Z)
    (* interpreter.py:143 *)
| ValueError_unknown_ir (cmd : string)
    (* assembler.py:84 *)
| ValueError_arity (cmd : string) (n got line : Z)
    (* assembler.py:128, raised by [need] *)
| ValueError_unknown_command (cmd : string) (line : Z)
    (* assembler.py:158 *)
| MemoryError_too_large (program_len mem_size : Z)
    (* interpreter.py:57 *)
| IndexError_register (op field : string) (idx : Z)
    (* interpreter.py:91,100,102,112,125,127,129 *)
| IndexError_address (what : string) (addr mem_size : Z)
    (* interpreter.py:33, raised by [_check_addr] *)
| IndexError_list
    (* a list subscript outside [-len, len) *)
| KeyError (key : string)
    (* a dict subscript with a missing key *)
| ZeroDivisionError
    (* [pow(0, n)] with [n < 0] *)
| OverflowError.
    (* int too large for a float, or for [to_bytes] *)

Definition class_of (e : exn) : pyclass :=
  match e with
  | ValueError_negative_shift | ValueError_int_literal _
  | ValueError_alignment | ValueError_unknown_opcode _
  | ValueError_unknown_ir _ | ValueError_arity _ _ _ _
  | ValueError_unknown_command _ _ => ClsValueError
  | MemoryError_too_large _ _ => ClsMemoryError
  | IndexError_register _ _ _ | IndexError_address _ _ _
  | IndexError_list => ClsIndexError
  | KeyError _ => ClsKeyError
  | ZeroDivisionError => ClsZeroDivisionError
  | OverflowError => ClsOverflowError
  end.

(** A computation that returns or raises. *)
Inductive result (A : Type) : Type :=
| Ok (a : A)
| Err (e : exn).
Arguments Ok {A} a.
Arguments Err {A} e.

#[global] Instance result_ret : MRet result := fun A a => Ok a.
#[global] Instance result_bind : MBind result := fun A B f m =>
  match m with
  | Ok a => f a
  | Err e => Err e
  end.
#[global] Instance result_fmap : FMap result := fun A B f m =>
  match m with
  | Ok a => Ok (f a)
  | Err e => Err e
  end.

(** [a << n] and [a >> n]: a negative count raises ValueError. *)
Definition lshift (a n : Z) : result Z :=
  if n <? 0 then Err ValueError_negative_shift else Ok (Z.shiftl a n).

Definition rshift (a n : Z) : result Z :=
  if n <? 0 then Err ValueError_negative_shift else Ok (Z.shiftr a n).

(** [len(l)] *)
Definition len {A} (l : list A) : Z := Z.of_nat (length l).

(** [l[i]] on a list: indices in [-len, 0) count from the end. *)
Definition getitem {A} (l : list A) (i : Z) : result A :=
  let j := if i <? 0 then len l + i else i in
  if (j <? 0) || (len l <=? j) then Err IndexError_list
  else match l !! Z.to_nat j with
       | Some x => Ok x
       | None => Err IndexError_list
       end.

(** [l[i] = x] on a list. *)
Definition setitem {A} (l : list A) (i : Z) (x : A) : result (list A) :=
  let j := if i <? 0 then len l + i else i in
  if (j <? 0) || (len l <=? j) then Err IndexError_list
  else Ok (<[Z.to_nat j := x]> l).

(** [[x] * n]: a negative count gives the empty list. *)
Definition list_repeat {A} (x : A) (n : Z) : list A := repeat x (Z.to_nat n).

(** [range(start, stop, step)] for a positive step. *)
Definition range (start stop step : Z) : list Z :=
  map (fun k => start + Z.of_nat k * step)
      (seq 0 (Z.to_nat ((stop - start + step - 1) / step))).

(** [b[i:j]] for [0 <= i <= j]: slices are clipped to the sequence. *)
Definition slice {A} (l : list A) (i j : Z) : list A :=
  firstn (Z.to_nat (j - i)) (skipn (Z.to_nat i) l).

(** [int.from_bytes(bs, "little")] *)
Definition from_bytes_little (bs : list byte) : Z :=
  fold_right (fun b acc => Z.of_N (Byte.to_N b) + 256 * acc) 0 bs.

(** The [n] low bytes of [v], least significant first. *)
Fixpoint bytes_little (n : nat) (v : Z) : list byte :=
  match n with
  | O => []
  | S n' =>
      match Byte.of_N (Z.to_N (v mod 256)) with
      | Some b => b :: bytes_little n' (v / 256)
      | None => []
      end
  end.

(** [v.to_bytes(n, "little")]: unsigned, so a negative [v] or one that
    needs more than [n] bytes raises OverflowError. *)
Definition to_bytes_little (v : Z) (n : nat) : result (list byte) :=
  if (v <? 0) || (256 ^ Z.of_nat n <=? v) then Err OverflowError
  else Ok (bytes_little n v).

(** [float(a)] raises OverflowError once [a] rounds to 2^1024 or beyond. *)
Definition float_overflows (a : Z) : bool :=
  2 ^ 1024 - 2 ^ 970 <=? Z.abs a.

(** [int(pow(a, b))] on two ints.

    For [b >= 0] CPython computes the exact integer power.  For [b < 0]
    it converts both operands to floats and takes the float power; the
    integer part of that float is determined by the operands: the
    conversion overflows for huge operands, a zero base raises
    ZeroDivisionError, a base of absolute value at least 2 gives a float of
    magnitude at most 0.5 (truncated to 0 by [int]), and a base of 1 or -1
    gives 1.0 or -1.0, the sign by the parity of the exponent as a float
    (floats of magnitude 2^53 and above are even). *)
Definition int_pow (a b : Z) : result Z :=
  if 0 <=? b then Ok (a ^ b)
  else if float_overflows a || float_overflows b then Err OverflowError
  else if a =? 0 then Err ZeroDivisionError
  else if a =? 1 then Ok 1
  else if a =? -1 then
    Ok (if Z.odd b && (Z.abs b <? 2 ^ 53) then -1 else 1)
  else Ok 0.

End Py.
Export Py.

(* ===================================================================== *)
(** * src/utils.py                                                        *)
(* ===================================================================== *)

Module Utils.

(** [def mask(n): return (1 << n) - 1] *)
Definition mask (n : Z) : result Z :=
  x ← lshift 1 n; mret (x - 1).

(** The body of the [for] loop of [pack_fields], threading [val]. *)
Fixpoint pack_fields_loop (val : Z) (pairs : list (Z * Z * Z)) : result Z :=
  match pairs with
  | [] => Ok val
  | (v, start, width) :: rest =>
      m ← mask width;
      x ← lshift (Z.land v m) start;
      pack_fields_loop (Z.lor val x) rest
  end.

(** [def pack_fields(pairs)] *)
Definition pack_fields (pairs : list (Z * Z * Z)) : result Z :=
  val ← pack_fields_loop 0 pairs;
  mret (Z.land val 0xFFFFFFFF).

(** [def unpack_field(cmd, start, width)] *)
Definition unpack_field (cmd start width : Z) : result Z :=
  x ← rshift cmd start;
  m ← mask width;
  mret (Z.land x m).

End Utils.
Export Utils.

(* ===================================================================== *)
(** * Python string built-ins used by the assembler                       *)
(* ===================================================================== *)

(** [str.upper], [str.strip] and [int(str)] belong to the Python runtime,
    not to the repository.  The assembler is embedded over any
    implementation of them; [ascii_str_ops] below is the one for ASCII
    text that the concrete programs are run with. *)
Class StrOps : Type := {
  str_upper : string -> string;
  str_strip : string -> string;
  str_int : string -> option Z
}.

Module AsciiStr.

Definition upper_char (c : ascii) : ascii :=
  let n := nat_of_ascii c in
  if ((97 <=? n) && (n <=? 122))%nat then ascii_of_nat (n - 32) else c.

Fixpoint upper (s : string) : string :=
  match s with
  | EmptyString => EmptyString
  | String c s' => String (upper_char c) (upper s')
  end.

Definition is_space (c : ascii) : bool :=
  let n := nat_of_ascii c in
  ((n =? 32) || ((9 <=? n) && (n <=? 13)) || ((28 <=? n) && (n <=? 31)))%nat.

Fixpoint lstrip (s : string) : string :=
  match s with
  | EmptyString => EmptyString
  | String c s' => if is_space c then lstrip s' else s
  end.

Fixpoint rstrip (s : string) : string :=
  match s with
  | EmptyString => EmptyString
  | String c s' =>
      match rstrip s' with
      | EmptyString => if is_space c then EmptyString else String c EmptyString
      | r => String c r
      end
  end.

Definition strip (s : string) : string := rstrip (lstrip s).

Definition digit_of (c : ascii) : option Z :=
  let n := nat_of_ascii c in
  if ((48 <=? n) && (n <=? 57))%nat then Some (Z.of_nat (n - 48)) else None.

(** Decimal digits, single underscores allowed between two digits. *)
Fixpoint digits (acc : Z) (after_digit : bool) (s : string) : option Z :=
  match s with
  | EmptyString => if after_digit then Some acc else None
  | String c s' =>
      match digit_of c with
      | Some d => digits (10 * acc + d) true s'
      | None =>
          if Ascii.eqb c "_" && after_digit then digits acc false s' else None
      end
  end.

Definition parse_int (s : string) : option Z :=
  match strip s with
  | String "-" s' => Z.opp <$> digits 0 false s'
  | String "+" s' => digits 0 false s'
  | s' => digits 0 false s'
  end.

End AsciiStr.

Definition ascii_str_ops : StrOps :=
  {| str_upper := AsciiStr.upper;
     str_strip := AsciiStr.strip;
     str_int := AsciiStr.parse_int |}.

(* ===================================================================== *)
(** * src/assembler.py                                                    *)
(* ===================================================================== *)

Module Assembler.

Definition INSTR_SIZE : nat := 4.

(** An IR record is the dict [{"cmd": name, "B": b, ...}]: the string
    under ["cmd"] and the map of the integer operands. *)
Record ir : Type := mk_ir {
  ir_cmd : string;
  ir_args : gmap string Z
}.

(** [ir[key]] for an operand key; [int(...)] of an int is the int. *)
Definition ir_get (i : ir) (key : string) : result Z :=
  match ir_args i !! key with
  | Some z => Ok z
  | None => Err (KeyError key)
  end.

(** [def encode_instr(ir)] *)
Definition encode_instr (i : ir) : result (list byte) :=
  let cmd_name := ir_cmd i in
  if String.eqb cmd_name "LOAD_CONST" then
    let A := 13 in
    B ← ir_get i "B";
    C ← ir_get i "C";
    val ← pack_fields [(A, 0, 5); (B, 5, 7); (C, 12, 11)];
    to_bytes_little val INSTR_SIZE
  else if String.eqb cmd_name "READ_MEM" then
    let A := 26 in
    B ← ir_get i "B";
    C ← ir_get i "C";
    D ← ir_get i "D";
    val ← pack_fields [(A, 0, 5); (B, 5, 7); (C, 12, 7); (D, 19, 6)];
    to_bytes_little val INSTR_SIZE
  else if String.eqb cmd_name "WRITE_MEM" then
    let A := 15 in
    B ← ir_get i "B";
    C ← ir_get i "C";
    val ← pack_fields [(A, 0, 5); (B, 5, 7); (C, 12, 14)];
    to_bytes_little val INSTR_SIZE
  else if String.eqb cmd_name "POW" then
    let A := 22 in
    B ← ir_get i "B";
    C ← ir_get i "C";
    D ← ir_get i "D";
    E ← ir_get i "E";
    val ← pack_fields [(A, 0, 5); (B, 5, 7); (C, 12, 7); (D, 19, 6); (E, 25, 7)];
    to_bytes_little val INSTR_SIZE
  else Err (ValueError_unknown_ir cmd_name).

Section WithStrOps.
Context {ops : StrOps}.

(** [int(s)] on a string *)
Definition int_of_str (s : string) : result Z :=
  match str_int s with
  | Some z => Ok z
  | None => Err (ValueError_int_literal s)
  end.

(** The rows [parse_csv_program] keeps, from the rows of [csv.reader]:
    empty rows and rows whose first field is blank or starts with [#] are
    dropped, the fields of the others are stripped. *)
Fixpoint program_rows (reader : list (list string)) : list (list string) :=
  match reader with
  | [] => []
  | row :: rest =>
      match row with
      | [] => program_rows rest
      | r0 :: _ =>
          let first := str_strip r0 in
          if String.eqb first "" || String.prefix "#" first
          then program_rows rest
          else
            let row' := map str_strip row in
            if (len row' =? 0) then program_rows rest
            else row' :: program_rows rest
      end
  end.

(** The inner [def need(n)] of [to_ir], closed over [row], [cmd], [idx]. *)
Definition need (row : list string) (cmd : string) (idx : Z) (n : Z)
  : result unit :=
  if negb (len row =? n)
  then Err (ValueError_arity cmd (n - 1) (len row - 1) (idx + 1))
  else Ok tt.

(** One iteration of the [for] loop of [to_ir]: the record appended for
    [row], or the exception raised. *)
Definition to_ir_row (idx : Z) (row : list string) : result ir :=
  r0 ← getitem row 0;
  let cmd := str_upper r0 in
  if String.eqb cmd "LOAD_CONST" then
    need row cmd idx 3;;
    B ← getitem row 1 ≫= int_of_str;
    C ← getitem row 2 ≫= int_of_str;
    mret (mk_ir "LOAD_CONST" (<["B" := B]> (<["C" := C]> ∅)))
  else if String.eqb cmd "READ_MEM" then
    need row cmd idx 4;;
    B ← getitem row 1 ≫= int_of_str;
    C ← getitem row 2 ≫= int_of_str;
    D ← getitem row 3 ≫= int_of_str;
    mret (mk_ir "READ_MEM" (<["B" := B]> (<["C" := C]> (<["D" := D]> ∅))))
  else if String.eqb cmd "WRITE_MEM" then
    need row cmd idx 3;;
    B ← getitem row 1 ≫= int_of_str;
    C ← getitem row 2 ≫= int_of_str;
    mret (mk_ir "WRITE_MEM" (<["B" := B]> (<["C" := C]> ∅)))
  else if String.eqb cmd "POW" then
    need row cmd idx 5;;
    B ← getitem row 1 ≫= int_of_str;
    C ← getitem row 2 ≫= int_of_str;
    D ← getitem row 3 ≫= int_of_str;
    E ← getitem row 4 ≫= int_of_str;
    mret (mk_ir "POW"
            (<["B" := B]> (<["C" := C]> (<["D" := D]> (<["E" := E]> ∅)))))
  else Err (ValueError_unknown_command cmd (idx + 1)).

(** The [for idx, row in enumerate(csv_rows)] loop, threading the list
    [ir] that the body appends to. *)
Fixpoint to_ir_loop (ir_acc : list ir) (idx : Z) (csv_rows : list (list string))
  : result (list ir) :=
  match csv_rows with
  | [] => Ok ir_acc
  | row :: rest =>
      r ← to_ir_row idx row;
      to_ir_loop (ir_acc ++ [r]) (idx + 1) rest
  end.

(** [def to_ir(csv_rows)] *)
Definition to_ir (csv_rows : list (list string)) : result (list ir) :=
  to_ir_loop [] 0 csv_rows.

End WithStrOps.

(** The [for instr in ir_list] loop of [assemble], threading [binary]. *)
Fixpoint assemble_loop (binary : list byte) (ir_list : list ir)
  : result (list byte) :=
  match ir_list with
  | [] => Ok binary
  | instr :: rest =>
      bs ← encode_instr instr;
      assemble_loop (binary ++ bs) rest
  end.

(** [def assemble(ir_list)] *)
Definition assemble (ir_list : list ir) : result (list byte) :=
  assemble_loop [] ir_list.

End Assembler.
Export Assembler.

(* ===================================================================== *)
(** * src/interpreter.py                                                  *)
(* ===================================================================== *)

Module Interpreter.

(** The [state] dict: its four keys. *)
Record state : Type := mk_state {
  regs : list Z;
  mem : list Z;
  pc : Z;
  program_len : Z
}.

Definition set_regs (l : list Z) (st : state) : state :=
  mk_state l (mem st) (pc st) (program_len st).
Definition set_mem (l : list Z) (st : state) : state :=
  mk_state (regs st) l (pc st) (program_len st).
Definition set_pc (p : Z) (st : state) : state :=
  mk_state (regs st) (mem st) p (program_len st).

(** [decode_and_execute_one] mutates the lists of the dict it is given and
    may raise half-way: a computation takes the store and gives back the
    store as the call left it, with the value returned or the exception
    raised. *)
Definition M (A : Type) : Type := state -> state * result A.

#[global] Instance M_ret : MRet M := fun A a st => (st, Ok a).
#[global] Instance M_bind : MBind M := fun A B f m st =>
  match m st with
  | (st', Ok a) => f a st'
  | (st', Err e) => (st', Err e)
  end.

Definition raise {A} (e : exn) : M A := fun st => (st, Err e).
Definition lift {A} (r : result A) : M A := fun st => (st, r).
Definition gets {A} (f : state -> A) : M A := fun st => (st, Ok (f st)).

(** [regs[i]] and [mem[i]] *)
Definition get_reg (i : Z) : M Z := fun st => (st, getitem (regs st) i).
Definition get_mem (i : Z) : M Z := fun st => (st, getitem (mem st) i).

(** [regs[i] = v] and [mem[i] = v] *)
Definition put_reg (i v : Z) : M unit := fun st =>
  match setitem (regs st) i v with
  | Ok l => (set_regs l st, Ok tt)
  | Err e => (st, Err e)
  end.
Definition put_mem (i v : Z) : M unit := fun st =>
  match setitem (mem st) i v with
  | Ok l => (set_mem l st, Ok tt)
  | Err e => (st, Err e)
  end.

Definition INSTR_SIZE : Z := 4.

(** [def _check_addr(addr, mem_size, what)] *)
Definition _check_addr (addr mem_size : Z) (what : string) : result unit :=
  if (addr <? 0) || (mem_size <=? addr)
  then Err (IndexError_address what addr mem_size)
  else Ok tt.

(** [(cmd_int >> start) & mask(width)] *)
Definition bits (cmd_int start width : Z) : M Z :=
  lift (x ← rshift cmd_int start; m ← mask width; mret (Z.land x m)).

(** [if X < 0 or X >= len(regs): raise IndexError(...)] *)
Definition check_reg (op field : string) (X : Z) : M unit :=
  n ← gets (fun st => len (regs st));
  if (X <? 0) || (n <=? X) then raise (IndexError_register op field X)
  else mret tt.

(** [def decode_and_execute_one(cmd_int, state)] *)
Definition decode_and_execute_one (cmd_int : Z) : M unit :=
  mem_size ← gets (fun st => len (mem st));
  A ← bits cmd_int 0 5;
  if A =? 13 then
    B ← bits cmd_int 5 7;
    C ← bits cmd_int 12 11;
    check_reg "LOAD_CONST" "B" B;;
    put_reg B C
  else if A =? 26 then
    B ← bits cmd_int 5 7;
    C ← bits cmd_int 12 7;
    D ← bits cmd_int 19 6;
    check_reg "READ_MEM" "B" B;;
    check_reg "READ_MEM" "C" C;;
    rB ← get_reg B;
    let addr := rB + D in
    lift (_check_addr addr mem_size "READ_MEM");;
    v ← get_mem addr;
    put_reg C v
  else if A =? 15 then
    B ← bits cmd_int 5 7;
    C ← bits cmd_int 12 14;
    check_reg "WRITE_MEM" "B" B;;
    let addr := C in
    lift (_check_addr addr mem_size "WRITE_MEM");;
    v ← get_reg B;
    put_mem addr v
  else if A =? 22 then
    B ← bits cmd_int 5 7;
    C ← bits cmd_int 12 7;
    D ← bits cmd_int 19 6;
    E ← bits cmd_int 25 7;
    check_reg "POW" "B" B;;
    check_reg "POW" "C" C;;
    check_reg "POW" "E" E;;
    rE ← get_reg E;
    let addr1 := rE + D in
    lift (_check_addr addr1 mem_size "POW operand1");;
    op1 ← get_mem addr1;
    rB ← get_reg B;
    let addr2 := rB in
    lift (_check_addr addr2 mem_size "POW operand2");;
    op2 ← get_mem addr2;
    r ← lift (int_pow op1 op2);
    put_reg C r
  else raise (ValueError_unknown_opcode A).

(** What a run of the [while] loop leaves behind: the state returned, the
    exception that escaped, or a loop cut short by the step bound. *)
Inductive outcome : Type :=
| Returned (st : state)
| Raised (e : exn)
| OutOfFuel.

(** One iteration of the loop, as an observer sees it: the address
    fetched, the word found there, and the program counter in the state
    handed to [decode_and_execute_one]. *)
Record event : Type := mk_event {
  ev_addr : Z;
  ev_instr : Z;
  ev_pc : Z
}.

(** The [while state["pc"] < state["program_len"]] loop, cut after [fuel]
    iterations, with the iterations it performed. *)
Fixpoint exec_loop (fuel : nat) (st : state) : list event * outcome :=
  if pc st <? program_len st then
    match fuel with
    | O => ([], OutOfFuel)
    | S fuel' =>
        match getitem (mem st) (pc st) with
        | Err e => ([], Raised e)
        | Ok instr =>
            let st1 := set_pc (pc st + 1) st in
            let ev := mk_event (pc st) instr (pc st1) in
            match decode_and_execute_one instr st1 with
            | (st2, Ok _) =>
                let (tr, o) := exec_loop fuel' st2 in (ev :: tr, o)
            | (_, Err e) => ([ev], Raised e)
            end
        end
    end
  else ([], Returned st).

(** The list comprehension building [program_words]. *)
Definition program_words (code_bytes : list byte) : list Z :=
  map (fun i => from_bytes_little (slice code_bytes i (i + INSTR_SIZE)))
      (range 0 (len code_bytes) INSTR_SIZE).

(** The [for i, w in enumerate(program_words)] loop, from index [i]. *)
Fixpoint load_program (i : Z) (ws : list Z) (m : list Z) : result (list Z) :=
  match ws with
  | [] => Ok m
  | w :: rest => m' ← setitem m i w; load_program (i + 1) rest m'
  end.

(** [def run_binary_bytes(code_bytes, mem_size, regs_count)], with the
    bound on the iterations of its loop. *)
Definition run_binary_bytes (fuel : nat) (code_bytes : list byte)
    (mem_size regs_count : Z) : list event * outcome :=
  if negb (len code_bytes mod INSTR_SIZE =? 0)
  then ([], Raised ValueError_alignment)
  else
    let words := program_words code_bytes in
    let st := mk_state (list_repeat 0 regs_count) (list_repeat 0 mem_size)
                       0 (len words) in
    if mem_size <? program_len st
    then ([], Raised (MemoryError_too_large (program_len st) mem_size))
    else
      match load_program 0 words (mem st) with
      | Err e => ([], Raised e)
      | Ok m => exec_loop fuel (set_mem m st)
      end.

Definition default_mem_size : Z := Z.shiftl 1 16.
Definition default_regs_count : Z := 32.

End Interpreter.
Export Interpreter.



(* ===================================================================== *)
(** * Specification-side definitions                                      *)
(* ===================================================================== *)

(** These follow the words of the specification (the field table of the
    instruction set, the arity table of the translator, the bounds rule),
    not the code; the theorems below compare the embedded code with
    them. *)

Module Spec.

(** The field of [width] bits at bit [start] of an instruction word. *)
Definition fld (w start width : Z) : Z :=
  Z.land (Z.shiftr w start) (Z.ones width).

Definition opcode (w : Z) : Z := fld w 0 5.

(** Array read with 0 outside the array: only ever used on indices that
    a hypothesis or a check puts inside it. *)
Definition rd (l : list Z) (i : Z) : Z := default 0 (l !! Z.to_nat i).

Definition in_range (i n : Z) : bool := (0 <=? i) && (i <? n).

(** ** POW (opcode 22) *)

Definition pow_B (w : Z) : Z := fld w 5 7.
Definition pow_C (w : Z) : Z := fld w 12 7.
Definition pow_D (w : Z) : Z := fld w 19 6.
Definition pow_E (w : Z) : Z := fld w 25 7.
Definition pow_addr1 (w : Z) (st : state) : Z := rd (regs st) (pow_E w) + pow_D w.
Definition pow_addr2 (w : Z) (st : state) : Z := rd (regs st) (pow_B w).
Definition pow_op1 (w : Z) (st : state) : Z := rd (mem st) (pow_addr1 w st).
Definition pow_op2 (w : Z) (st : state) : Z := rd (mem st) (pow_addr2 w st).

(** Registers B, C, E within the register count, both operand addresses
    within the memory size. *)
Definition pow_pre (w : Z) (st : state) : Prop :=
  opcode w = 22 /\
  pow_B w < len (regs st) /\ pow_C w < len (regs st) /\
  pow_E w < len (regs st) /\
  0 <= pow_addr1 w st < len (mem st) /\
  0 <= pow_addr2 w st < len (mem st).

(** The instruction returns, reg[C] holds the exact power, every other
    register and all of memory are as before. *)
Definition pow_post (w : Z) (st : state) : Prop :=
  exists st',
    decode_and_execute_one w st = (st', Ok tt) /\
    regs st' !! Z.to_nat (pow_C w) = Some (pow_op1 w st ^ pow_op2 w st) /\
    (forall i : nat, i <> Z.to_nat (pow_C w) -> regs st' !! i = regs st !! i) /\
    length (regs st') = length (regs st) /\
    mem st' = mem st.

(** ** Bounds rule *)

(** Every register index the instruction uses is below the register
    count and every memory address it uses is inside memory.  An address
    is only formed once the registers it is read from are in bounds. *)
Definition access_ok (w : Z) (st : state) : bool :=
  let nr := len (regs st) in
  let nm := len (mem st) in
  if opcode w =? 13 then in_range (fld w 5 7) nr
  else if opcode w =? 26 then
    in_range (fld w 5 7) nr && in_range (fld w 12 7) nr &&
    in_range (rd (regs st) (fld w 5 7) + fld w 19 6) nm
  else if opcode w =? 15 then
    in_range (fld w 5 7) nr && in_range (fld w 12 14) nm
  else if opcode w =? 22 then
    in_range (pow_B w) nr && in_range (pow_C w) nr && in_range (pow_E w) nr &&
    in_range (pow_addr1 w st) nm && in_range (pow_addr2 w st) nm
  else true.

(** The exceptions that are the specification's OutOfBoundsError: the
    ones raised by the explicit checks. *)
Definition is_out_of_bounds (e : exn) : Prop :=
  match e with
  | IndexError_register _ _ _ | IndexError_address _ _ _ => True
  | _ => False
  end.

(** The exceptions one instruction can raise. *)
Definition instruction_error (e : exn) : Prop :=
  is_out_of_bounds e \/ (exists A, e = ValueError_unknown_opcode A) \/
  e = OverflowError \/ e = ZeroDivisionError.

(** The specification's ValidationError. *)
Definition is_validation (e : exn) : Prop :=
  match e with
  | ValueError_arity _ _ _ _ | ValueError_int_literal _
  | ValueError_unknown_command _ _ => True
  | _ => False
  end.

(** ** Direct form of one instruction *)

(** The field table read as a function on states, without the store
    monad: used to reason by cases on an instruction. *)
Definition exec_spec (w : Z) (st : state) : state * result unit :=
  let nr := len (regs st) in
  let nm := len (mem st) in
  let A := opcode w in
  if A =? 13 then
    let B := fld w 5 7 in
    let C := fld w 12 11 in
    if nr <=? B then (st, Err (IndexError_register "LOAD_CONST" "B" B))
    else (set_regs (<[Z.to_nat B := C]> (regs st)) st, Ok tt)
  else if A =? 26 then
    let B := fld w 5 7 in
    let C := fld w 12 7 in
    let D := fld w 19 6 in
    if nr <=? B then (st, Err (IndexError_register "READ_MEM" "B" B))
    else if nr <=? C then (st, Err (IndexError_register "READ_MEM" "C" C))
    else
      let addr := rd (regs st) B + D in
      if negb (in_range addr nm)
      then (st, Err (IndexError_address "READ_MEM" addr nm))
      else (set_regs (<[Z.to_nat C := rd (mem st) addr]> (regs st)) st, Ok tt)
  else if A =? 15 then
    let B := fld w 5 7 in
    let C := fld w 12 14 in
    if nr <=? B then (st, Err (IndexError_register "WRITE_MEM" "B" B))
    else if negb (in_range C nm)
    then (st, Err (IndexError_address "WRITE_MEM" C nm))
    else (set_mem (<[Z.to_nat C := rd (regs st) B]> (mem st)) st, Ok tt)
  else if A =? 22 then
    if nr <=? pow_B w then (st, Err (IndexError_register "POW" "B" (pow_B w)))
    else if nr <=? pow_C w
    then (st, Err (IndexError_register "POW" "C" (pow_C w)))
    else if nr <=? pow_E w
    then (st, Err (IndexError_register "POW" "E" (pow_E w)))
    else if negb (in_range (pow_addr1 w st) nm)
    then (st, Err (IndexError_address "POW operand1" (pow_addr1 w st) nm))
    else if negb (in_range (pow_addr2 w st) nm)
    then (st, Err (IndexError_address "POW operand2" (pow_addr2 w st) nm))
    else
      match int_pow (pow_op1 w st) (pow_op2 w st) with
      | Ok r => (set_regs (<[Z.to_nat (pow_C w) := r]> (regs st)) st, Ok tt)
      | Err e => (st, Err e)
      end
  else (st, Err (ValueError_unknown_opcode A)).

(** ** Reachable states of a run *)

(** The state [run_binary_bytes] builds before its loop. *)
Definition initial_state (code_bytes : list byte) (mem_size regs_count : Z)
  : option state :=
  if negb (len code_bytes mod 4 =? 0) then None
  else
    let words := program_words code_bytes in
    if mem_size <? len words then None
    else
      match load_program 0 words (list_repeat 0 mem_size) with
      | Ok m => Some (mk_state (list_repeat 0 regs_count) m 0 (len words))
      | Err _ => None
      end.

(** One error-free iteration of the loop. *)
Definition loop_step (st st' : state) : Prop :=
  pc st < program_len st /\
  exists instr,
    getitem (mem st) (pc st) = Ok instr /\
    decode_and_execute_one instr (set_pc (pc st + 1) st) = (st', Ok tt).

Inductive reachable (code_bytes : list byte) (mem_size regs_count : Z)
  : state -> Prop :=
| reach_init st :
    initial_state code_bytes mem_size regs_count = Some st ->
    reachable code_bytes mem_size regs_count st
| reach_step st st' :
    reachable code_bytes mem_size regs_count st ->
    loop_step st st' ->
    reachable code_bytes mem_size regs_count st'.

Definition nonneg_state (st : state) : Prop :=
  Forall (fun v => 0 <= v) (regs st) /\ Forall (fun v => 0 <= v) (mem st).

(** ** Translator *)

(** The arity table: operands required after the mnemonic. *)
Definition arity (cmd : string) : option Z :=
  if String.eqb cmd "LOAD_CONST" then Some 2
  else if String.eqb cmd "READ_MEM" then Some 3
  else if String.eqb cmd "WRITE_MEM" then Some 2
  else if String.eqb cmd "POW" then Some 4
  else None.

Section WithStrOps.
Context {ops : StrOps}.

(** A row is accepted when its mnemonic, upper-cased, is known, it has
    the operands the table asks for, and each parses as an integer. *)
Definition row_ok (row : list string) : bool :=
  match row with
  | [] => false
  | r0 :: args =>
      match arity (str_upper r0) with
      | None => false
      | Some k => (len args =? k) && forallb (fun a => bool_decide (is_Some (str_int a))) args
      end
  end.

(** The operands of a record, in the order B, C, D, E. *)
Definition operands (i : ir) : list Z :=
  omap (fun k => ir_args i !! k) ["B"; "C"; "D"; "E"]%string.

(** The record carries the row's mnemonic and its operands, in row
    order, and nothing else. *)
Definition row_describes (row : list string) (i : ir) : Prop :=
  exists r0 args,
    row = r0 :: args /\
    ir_cmd i = str_upper r0 /\
    map str_int args = map Some (operands i) /\
    size (ir_args i) = length args.

End WithStrOps.

(** ** Concrete programs *)

(** End-to-end scenario A, as the rows of its text. *)
Definition scenario_A : list (list string) :=
  [ ["LOAD_CONST"; "0"; "123"]; ["WRITE_MEM"; "0"; "100"];
    ["LOAD_CONST"; "2"; "100"]; ["READ_MEM"; "2"; "1"; "0"] ]%string.

(** Literal vector 3. *)
Definition vector_3 : list (list string) :=
  [ ["READ_MEM"; "2"; "1"; "0"] ]%string.

(** A state on which READ_MEM with B = C = D = 0 (the word 26) reads
    past the end of memory. *)
Definition st_read_oob : state := mk_state [5] [0; 0] 1 1.

(** End-to-end scenario B just before its POW: 2 in memory[600], 3 in
    memory[700], register 0 = 600, register 1 = 700. *)
Definition st_pow : state :=
  mk_state [600; 700; 0]
           (replicate 600 0 ++ [2] ++ replicate 99 0 ++ [3]) 5 5.

(** POW with B = 1, C = 2, D = 0, E = 0. *)
Definition w_pow : Z := 22 + 1 * 32 + 2 * 4096.

(** A state with a negative cell: base 0 at address 0, exponent -1 at
    address 1. *)
Definition st_negative_exponent : state := mk_state [0; 1] [0; -1] 1 1.

(** The sixteen bytes scenario A assembles to. *)
Definition scenario_A_bytes : list byte :=
  [x0d; xb0; x07; x00; x0f; x40; x06; x00;
   x4d; x40; x06; x00; x5a; x10; x00; x00].

(** A state about to fetch READ_MEM with B = C = D = 0 (the word 26) at
    address 0, whose register 0 points past the end of memory. *)
Definition st_fetch_oob : state := mk_state [7] [26; 0] 0 2.

(** Text to bytes with the ASCII string built-ins. *)
Definition assemble_rows (rows : list (list string)) : result (list byte) :=
  @to_ir ascii_str_ops rows ≫= assemble.

End Spec.
Export Spec.

(* ===================================================================== *)
(** * Further definitions: the codec on several fields                    *)
(* ===================================================================== *)

Module CodecSpec.

(** A field specification [(value, start, width)]. *)
Definition field : Type := (Z * Z * Z)%type.

(** The shift or the mask of this field raises. *)
Definition negative_field (f : field) : bool :=
  let '(_, start, width) := f in (width <? 0) || (start <? 0).

(** The bits the fields contribute, OR-ed together. *)
Fixpoint lor_fields (pairs : list field) : Z :=
  match pairs with
  | [] => 0
  | (v, start, width) :: rest =>
      Z.lor (Z.shiftl (Z.land v (Z.ones width)) start) (lor_fields rest)
  end.

(** Bit [m] of the word is set by this field. *)
Definition sets_bit (m : Z) (f : field) : bool :=
  let '(v, start, width) := f in
  (start <=? m) && (m <? start + width) && Z.testbit v (m - start).

(** The bit ranges of two fields do not meet. *)
Definition apart (start width : Z) (f : field) : Prop :=
  let '(_, start', width') := f in
  start + width <= start' \/ start' + width' <= start.

(** Start and width are not negative. *)
Definition well_formed (f : field) : Prop :=
  let '(_, start, width) := f in 0 <= start /\ 0 <= width.

End CodecSpec.
Export CodecSpec.

(* ===================================================================== *)
(** * Further definitions: instruction formats and row sources            *)
(* ===================================================================== *)

Module AssemblerSpec.

(** The layout comments of [assembler.py] and [interpreter.py] as a
    table: the value of field A and, for each operand key, the start bit
    and the width of its field. *)
Definition format (cmd : string) : option (Z * list (string * Z * Z)) :=
  if String.eqb cmd "LOAD_CONST" then
    Some (13, [("B", 5, 7); ("C", 12, 11)])%string
  else if String.eqb cmd "READ_MEM" then
    Some (26, [("B", 5, 7); ("C", 12, 7); ("D", 19, 6)])%string
  else if String.eqb cmd "WRITE_MEM" then
    Some (15, [("B", 5, 7); ("C", 12, 14)])%string
  else if String.eqb cmd "POW" then
    Some (22, [("B", 5, 7); ("C", 12, 7); ("D", 19, 6); ("E", 25, 7)])%string
  else None.

(** The operand keys of a format that the record lacks. *)
Definition missing_keys (i : ir) (layout : list (string * Z * Z)) : list string :=
  omap (fun '(key, _, _) =>
          match ir_args i !! key with
          | Some _ => None
          | None => Some key
          end) layout.

(** The fields [encode_instr] hands to [pack_fields] for a format. *)
Definition fields_of (i : ir) (A : Z) (layout : list (string * Z * Z))
  : list field :=
  (A, 0, 5) ::
  omap (fun '(key, start, width) =>
          match ir_args i !! key with
          | Some v => Some (v, start, width)
          | None => None
          end) layout.

(** The 32-bit word of a record of a known format with all its keys. *)
Definition word_of (i : ir) (A : Z) (layout : list (string * Z * Z)) : Z :=
  Z.land (lor_fields (fields_of i A layout)) (Z.ones 32).

(** The record of READ_MEM,130,1,-1: B beyond its 7 bits, D negative. *)
Definition ir_read_mem : ir :=
  mk_ir "READ_MEM" (<["B" := 130]> (<["C" := 1]> (<["D" := -1]> ∅))).

End AssemblerSpec.
Export AssemblerSpec.

Module RowSources.

Section WithStrOps.
Context {ops : StrOps}.

(** The list comprehension of [api_assemble_run] and
    [api_download_binary] in [web/app.py]:
    [[row for row in reader if row and not row[0].strip().startswith('#')]]. *)
Definition web_rows (reader : list (list string)) : list (list string) :=
  List.filter (fun row =>
                 match row with
                 | [] => false
                 | r0 :: _ => negb (String.prefix "#" (str_strip r0))
                 end) reader.

(** [AssembleRunWorker.parse_csv_rows] of [gui/main_gui.py], from the
    rows of [csv.reader]. *)
Fixpoint parse_csv_rows (reader : list (list string)) : list (list string) :=
  match reader with
  | [] => []
  | row :: rest =>
      match row with
      | [] => parse_csv_rows rest
      | r0 :: _ =>
          let first := str_strip r0 in
          if String.eqb first "" || String.prefix "#" first
          then parse_csv_rows rest
          else map str_strip row :: parse_csv_rows rest
      end
  end.

End WithStrOps.

End RowSources.
Export RowSources.

(* ===================================================================== *)
(** * Further embedding: [run_program], its callers, the test harness     *)
(* ===================================================================== *)

Module Program.

(** The exceptions of [run_program] itself, and the ones that escape
    from the [run_binary_bytes] it calls. *)
Inductive program_exn : Type :=
| FileNotFoundError
    (* interpreter.py:150 *)
| ValueError_alignment_file
    (* interpreter.py:154, the same message as interpreter.py:42 *)
| ValueError_invalid_dump_range
    (* interpreter.py:163 *)
| IndexError_dump_range
    (* interpreter.py:165 *)
| FromRun (e : exn).

(** What a call of [run_program] leaves behind: the state returned
    together with the memory dump written (the [cell] elements of the XML
    document, as address and value), the exception raised, or a loop cut
    short by the step bound. *)
Inductive program_outcome : Type :=
| ProgramReturned (st : state) (dump : option (list (Z * Z)))
| ProgramRaised (e : program_exn)
| ProgramOutOfFuel.

(** The [for addr in range(start, end + 1)] loop building the cells. *)
Fixpoint dump_cells (m : list Z) (addrs : list Z) : result (list (Z * Z)) :=
  match addrs with
  | [] => Ok []
  | addr :: rest =>
      v ← getitem m addr;
      cells ← dump_cells m rest;
      mret ((addr, v) :: cells)
  end.

(** [def run_program(bin_path, mem_size, regs_count, dump_xml, dump_range)].
    The file system is the content of [bin_path], if the file exists;
    [dump_xml] is the path given or [None]. *)
Definition run_program (fuel : nat) (file : option (list byte))
    (mem_size regs_count : Z)
    (dump_xml : option string) (dump_range : option (Z * Z))
  : program_outcome :=
  match file with
  | None => ProgramRaised FileNotFoundError
  | Some code_bytes =>
      if negb (len code_bytes mod Interpreter.INSTR_SIZE =? 0)
      then ProgramRaised ValueError_alignment_file
      else
        match (run_binary_bytes fuel code_bytes mem_size regs_count).2 with
        | OutOfFuel => ProgramOutOfFuel
        | Raised e => ProgramRaised (FromRun e)
        | Returned st =>
            match dump_xml, dump_range with
            | Some _, Some (start, end_) =>
                if (start <? 0) || (end_ <? 0) || (end_ <? start)
                then ProgramRaised ValueError_invalid_dump_range
                else if mem_size <=? end_
                then ProgramRaised IndexError_dump_range
                else
                  match dump_cells (mem st) (range start (end_ + 1) 1) with
                  | Ok cells => ProgramReturned st (Some cells)
                  | Err e => ProgramRaised (FromRun e)
                  end
            | _, _ => ProgramReturned st None
            end
        end
  end.

(** The dump-range test of [AssembleRunWorker.run] in [gui/main_gui.py]:
    [if start < 0 or end >= self.mem_size or start > end: raise ValueError]. *)
Definition gui_range_rejected (mem_size start end_ : Z) : bool :=
  (start <? 0) || (mem_size <=? end_) || (end_ <? start).

End Program.
Export Program.

Module RunTests.

(** The [Expectations] dataclass of [tools/run_tests.py]. *)
Record Expectations : Type := mk_expectations {
  expected_bytes : option (list byte);
  expected_mem : list (Z * Z);
  expected_reg : list (Z * Z)
}.

(** The AssertionErrors of the harness, one constructor per raise. *)
Inductive assertion_error : Type :=
| Bytes_mismatch (expected actual : list byte)
| Mem_out_of_range (addr size : Z)
| Mem_mismatch (addr expected got : Z)
| Reg_out_of_range (idx size : Z)
| Reg_mismatch (idx expected got : Z)
| Escaped (e : exn).

(** One of the two [for] loops of [assert_expected_state], over the
    list [l] ([mem] or [regs]) with the errors of that loop. *)
Fixpoint check_cells (out_of_range : Z -> Z -> assertion_error)
    (mismatch : Z -> Z -> Z -> assertion_error)
    (l : list Z) (expected : list (Z * Z)) : assertion_error + unit :=
  match expected with
  | [] => inr tt
  | (addr, val) :: rest =>
      if (addr <? 0) || (len l <=? addr)
      then inl (out_of_range addr (len l))
      else
        match getitem l addr with
        | Err e => inl (Escaped e)
        | Ok got =>
            if negb (got =? val) then inl (mismatch addr val got)
            else check_cells out_of_range mismatch l rest
        end
  end.

(** [def assert_expected_state(state, exp)] *)
Definition assert_expected_state (st : state) (exp : Expectations)
  : assertion_error + unit :=
  match check_cells Mem_out_of_range Mem_mismatch (mem st) (expected_mem exp) with
  | inl e => inl e
  | inr _ =>
      check_cells Reg_out_of_range Reg_mismatch (regs st) (expected_reg exp)
  end.

End RunTests.
Export RunTests.
(* ===================================================================== *)
(** * Properties of the bit-field codec                                   *)
(* ===================================================================== *)

Section Codec.

Lemma mask_nonneg_width (w : Z) : 0 <= w -> mask w = Ok (Z.ones w).
Proof.
  intros Hw. unfold mask, lshift.
  destruct (Z.ltb_spec w 0) as [?|_]; [lia|].
  cbn. by rewrite Z.ones_equiv, Z.shiftl_1_l, <- Z.sub_1_r.
Qed.

Lemma mask_negative_width (w : Z) :
  w < 0 -> mask w = Err ValueError_negative_shift.
Proof.
  intros Hw. unfold mask, lshift.
  by destruct (Z.ltb_spec w 0) as [_|?]; [|lia].
Qed.

Lemma testbit_ones (w n : Z) :
  0 <= w -> 0 <= n -> Z.testbit (Z.ones w) n = (n <? w).
Proof.
  intros Hw Hn. destruct (Z.ltb_spec n w).
  - apply Z.ones_spec_low; lia.
  - apply Z.ones_spec_high; lia.
Qed.

(** A field written below bit 32 is read back as it was masked. *)
Lemma field_roundtrip_bits (v o w : Z) :
  0 <= o -> 0 <= w -> o + w <= 32 ->
  Z.land (Z.shiftr (Z.land (Z.lor 0 (Z.shiftl (Z.land v (Z.ones w)) o))
                           0xFFFFFFFF) o) (Z.ones w)
  = Z.land v (Z.ones w).
Proof.
  intros Ho Hw Hsum.
  change 0xFFFFFFFF with (Z.ones 32).
  apply Z.bits_inj'; intros n Hn.
  rewrite !Z.land_spec, Z.shiftr_spec, Z.land_spec, Z.lor_spec by lia.
  rewrite Z.bits_0, orb_false_l, Z.shiftl_spec by lia.
  rewrite Z.land_spec.
  replace (n + o - o) with n by lia.
  rewrite !testbit_ones by lia.
  destruct (Z.ltb_spec n w); destruct (Z.ltb_spec (n + o) 32);
    rewrite ?andb_true_r, ?andb_false_r; try reflexivity; lia.
Qed.


(** C5, as amended: for every value, every offset with 0 <= offset and
    every width with 1 <= width <= 32 - offset, unpacking the field at
    that offset and width from the single-field packed word returns the
    value masked to its low width bits. *)
Theorem pack_unpack_roundtrip (value offset width : Z) :
  0 <= offset ->
  1 <= width <= 32 - offset ->
  (word ← pack_fields [(value, offset, width)];
   unpack_field word offset width)
  = Ok (Z.land value (Z.shiftl 1 width - 1)).
Proof.
  intros Ho Hw.
  unfold pack_fields, unpack_field, pack_fields_loop.
  rewrite mask_nonneg_width by lia.
  unfold lshift, rshift.
  destruct (Z.ltb_spec offset 0) as [?|_]; [lia|].
  cbn. unfold mret, result_ret. f_equal.
  rewrite Z.shiftl_1_l, Z.sub_1_r, <- Z.ones_equiv.
  apply field_roundtrip_bits; lia.
Qed.

Lemma pack_unpack_roundtrip_witness :
  (word ← pack_fields [(300, 5, 7)]; unpack_field word 5 7) = Ok 44.
Proof.
  apply (pack_unpack_roundtrip 300 5 7); lia.
Defined.

(** C5 as stated fails for a negative offset: the width bound holds, but
    the left shift by -1 raises instead of packing. *)
Lemma pack_unpack_negative_offset :
  1 <= 1 <= 32 - (-1) /\
  (word ← pack_fields [(1, -1, 1)]; unpack_field word (-1) 1)
  <> Ok (Z.land 1 (Z.shiftl 1 1 - 1)).
Proof.
  split; [lia|]. vm_compute. discriminate.
Qed.

End Codec.

(* ===================================================================== *)
(** * One instruction: the monadic code against its direct form          *)
(* ===================================================================== *)

Section OneInstruction.

Implicit Types (w : Z) (st : state) (l : list Z).

(** Unfold the plumbing of the store monad. *)
Ltac run_M := cbv [mbind M_bind mret M_ret gets raise lift].

Lemma fld_nonneg w start width : 0 <= width -> 0 <= fld w start width.
Proof.
  intros Hw. unfold fld. apply Z.land_nonneg. right.
  rewrite Z.ones_equiv. pose proof (Z.pow_pos_nonneg 2 width). lia.
Qed.

Lemma bits_run w start width st :
  0 <= start -> 0 <= width ->
  bits w start width st = (st, Ok (fld w start width)).
Proof.
  intros Hs Hw. unfold bits, lift, rshift.
  destruct (Z.ltb_spec start 0) as [?|_]; [lia|].
  cbn. by rewrite mask_nonneg_width.
Qed.

Lemma getitem_in_range l i :
  0 <= i < len l -> getitem l i = Ok (rd l i).
Proof.
  intros [Hi Hl]. unfold getitem, rd.
  rewrite (proj2 (Z.ltb_ge i 0)) by lia. cbv zeta iota.
  rewrite (proj2 (Z.ltb_ge i 0)) by lia.
  rewrite (proj2 (Z.leb_gt (len l) i)) by lia. cbn.
  destruct (lookup_lt_is_Some_2 l (Z.to_nat i)) as [x Hx];
    [unfold len in Hl; lia|].
  rewrite Hx. reflexivity.
Qed.

Lemma setitem_in_range l i v :
  0 <= i < len l -> setitem l i v = Ok (<[Z.to_nat i := v]> l).
Proof.
  intros [Hi Hl]. unfold setitem.
  rewrite (proj2 (Z.ltb_ge i 0)) by lia. cbv zeta iota.
  rewrite (proj2 (Z.ltb_ge i 0)) by lia.
  by rewrite (proj2 (Z.leb_gt (len l) i)) by lia.
Qed.

Lemma check_reg_run op field X st :
  0 <= X ->
  check_reg op field X st =
  if len (regs st) <=? X then (st, Err (IndexError_register op field X))
  else (st, Ok tt).
Proof.
  intros HX. unfold check_reg. run_M.
  rewrite (proj2 (Z.ltb_ge X 0)) by lia.
  by destruct (len (regs st) <=? X).
Qed.

Lemma check_addr_run addr mem_size what :
  _check_addr addr mem_size what =
  if negb (in_range addr mem_size)
  then Err (IndexError_address what addr mem_size) else Ok tt.
Proof.
  unfold _check_addr, in_range.
  destruct (Z.ltb_spec addr 0), (Z.leb_spec mem_size addr),
    (Z.leb_spec 0 addr), (Z.ltb_spec addr mem_size); cbn; try reflexivity; lia.
Qed.

Lemma in_range_true i n : in_range i n = true <-> 0 <= i < n.
Proof. unfold in_range. rewrite andb_true_iff, Z.leb_le, Z.ltb_lt. tauto. Qed.

Lemma get_reg_run i st :
  0 <= i < len (regs st) -> get_reg i st = (st, Ok (rd (regs st) i)).
Proof. intros. unfold get_reg. by rewrite getitem_in_range. Qed.

Lemma get_mem_run i st :
  0 <= i < len (mem st) -> get_mem i st = (st, Ok (rd (mem st) i)).
Proof. intros. unfold get_mem. by rewrite getitem_in_range. Qed.

Lemma put_reg_run i v st :
  0 <= i < len (regs st) ->
  put_reg i v st = (set_regs (<[Z.to_nat i := v]> (regs st)) st, Ok tt).
Proof. intros. unfold put_reg. by rewrite setitem_in_range. Qed.

Lemma put_mem_run i v st :
  0 <= i < len (mem st) ->
  put_mem i v st = (set_mem (<[Z.to_nat i := v]> (mem st)) st, Ok tt).
Proof. intros. unfold put_mem. by rewrite setitem_in_range. Qed.

(** Decoding and executing one word is [exec_spec]. *)
Lemma decode_and_execute_one_spec w st :
  decode_and_execute_one w st = exec_spec w st.
Proof.
  unfold decode_and_execute_one, exec_spec, opcode,
    pow_op1, pow_op2, pow_addr1, pow_addr2, pow_B, pow_C, pow_D, pow_E.
  run_M.
  rewrite bits_run by lia.
  pose proof (fld_nonneg w 5 7 ltac:(lia)) as HB.
  pose proof (fld_nonneg w 12 7 ltac:(lia)) as HC7.
  pose proof (fld_nonneg w 12 11 ltac:(lia)) as HC11.
  pose proof (fld_nonneg w 12 14 ltac:(lia)) as HC14.
  pose proof (fld_nonneg w 25 7 ltac:(lia)) as HE.
  destruct (fld w 0 5 =? 13).
  { rewrite !bits_run by lia.
    rewrite check_reg_run by done.
    destruct (Z.leb_spec (len (regs st)) (fld w 5 7)); [done|].
    by rewrite put_reg_run by lia. }
  destruct (fld w 0 5 =? 26).
  { rewrite !bits_run by lia.
    rewrite check_reg_run by done.
    destruct (Z.leb_spec (len (regs st)) (fld w 5 7)); [done|].
    rewrite check_reg_run by done.
    destruct (Z.leb_spec (len (regs st)) (fld w 12 7)); [done|].
    rewrite get_reg_run by lia.
    rewrite check_addr_run.
    destruct (in_range _ _) eqn:Ha; [|done].
    apply in_range_true in Ha. cbn [negb].
    rewrite get_mem_run by done.
    by rewrite put_reg_run by lia. }
  destruct (fld w 0 5 =? 15).
  { rewrite !bits_run by lia.
    rewrite check_reg_run by done.
    destruct (Z.leb_spec (len (regs st)) (fld w 5 7)); [done|].
    rewrite check_addr_run.
    destruct (in_range _ _) eqn:Ha; [|done].
    apply in_range_true in Ha. cbn [negb].
    rewrite get_reg_run by lia.
    by rewrite put_mem_run by done. }
  destruct (fld w 0 5 =? 22); [|done].
  rewrite !bits_run by lia.
  rewrite check_reg_run by done.
  destruct (Z.leb_spec (len (regs st)) (fld w 5 7)); [done|].
  rewrite check_reg_run by done.
  destruct (Z.leb_spec (len (regs st)) (fld w 12 7)); [done|].
  rewrite check_reg_run by done.
  destruct (Z.leb_spec (len (regs st)) (fld w 25 7)); [done|].
  rewrite get_reg_run by lia.
  rewrite check_addr_run.
  destruct (in_range _ _) eqn:Ha1; [|done].
  apply in_range_true in Ha1. cbn [negb].
  rewrite get_mem_run by done.
  rewrite get_reg_run by lia.
  rewrite check_addr_run.
  destruct (in_range _ _) eqn:Ha2; [|done].
  apply in_range_true in Ha2. cbn [negb].
  rewrite get_mem_run by done.
  destruct (int_pow _ _); [|done].
  by rewrite put_reg_run by lia.
Qed.

Lemma int_pow_nonneg_exponent (a b : Z) : 0 <= b -> int_pow a b = Ok (a ^ b).
Proof. intros Hb. unfold int_pow. by rewrite (proj2 (Z.leb_le 0 b)). Qed.

Lemma int_pow_errors (a b : Z) e :
  int_pow a b = Err e -> e = OverflowError \/ e = ZeroDivisionError.
Proof.
  unfold int_pow. intros H.
  repeat case_match; simplify_eq; auto.
Qed.

Lemma len_insert l (i : nat) v : len (<[i := v]> l) = len l.
Proof. unfold len. by rewrite length_insert. Qed.

(** What one instruction can do to the store: nothing when it raises,
    one cell of one array when it returns. *)
Lemma exec_spec_effect w st st' r :
  exec_spec w st = (st', r) ->
  match r with
  | Err _ => st' = st
  | Ok _ =>
      (exists (i : nat) v, (i < length (regs st))%nat /\
                           st' = set_regs (<[i := v]> (regs st)) st) \/
      (exists (a : nat) v, (a < length (mem st))%nat /\
                           st' = set_mem (<[a := v]> (mem st)) st)
  end.
Proof.
  unfold exec_spec. intros H.
  pose proof (fld_nonneg w 5 7 ltac:(lia)).
  pose proof (fld_nonneg w 12 7 ltac:(lia)).
  pose proof (fld_nonneg w 12 14 ltac:(lia)).
  repeat case_match; simplify_eq; try done;
    repeat match goal with
    | H : (_ <=? _) = false |- _ => apply Z.leb_gt in H
    | H : negb (in_range _ _) = false |- _ =>
        apply negb_false_iff, in_range_true in H
    end; unfold len, pow_C in *;
    solve [ left; eexists _, _; split; [|reflexivity]; lia
          | right; eexists _, _; split; [|reflexivity]; lia ].
Qed.

(** C10: if executing one instruction raises, whatever the exception,
    registers and memory (the whole state) are exactly as they were
    before the instruction began; an instruction that returns has written
    exactly one cell, of the register file or of memory. *)
Theorem failed_instruction_leaves_state w st st' r :
  decode_and_execute_one w st = (st', r) ->
  match r with
  | Err _ => st' = st /\ regs st' = regs st /\ mem st' = mem st
  | Ok _ =>
      (exists (i : nat) v, (i < length (regs st))%nat /\
                           st' = set_regs (<[i := v]> (regs st)) st) \/
      (exists (a : nat) v, (a < length (mem st))%nat /\
                           st' = set_mem (<[a := v]> (mem st)) st)
  end.
Proof.
  rewrite decode_and_execute_one_spec. intros H.
  apply exec_spec_effect in H. destruct r; [done|]. by subst.
Qed.

Lemma failed_instruction_leaves_state_witness :
  decode_and_execute_one 26 st_read_oob
  = (st_read_oob, Err (IndexError_address "READ_MEM" 5 2)) /\
  (st_read_oob = st_read_oob /\
   regs st_read_oob = regs st_read_oob /\ mem st_read_oob = mem st_read_oob).
Proof.
  split; [reflexivity|].
  apply (failed_instruction_leaves_state 26 st_read_oob st_read_oob
           (Err (IndexError_address "READ_MEM" 5 2))).
  reflexivity.
Defined.

(** C2, as amended: for every machine state and every instruction word
    whose opcode field is 22, if registers B, C, E are within the register
    count, both addresses reg[E]+D and reg[B] are within memory, and the
    exponent mem[reg[B]] is not negative, then executing the instruction
    sets reg[C] to mem[reg[E]+D] raised to the power mem[reg[B]] as an
    exact integer and leaves all other registers and all of memory
    unchanged. *)
Theorem pow_exact w st :
  pow_pre w st -> 0 <= pow_op2 w st -> pow_post w st.
Proof.
  intros (Hop & HB & HC & HE & Ha1 & Ha2) Hexp.
  pose proof (fld_nonneg w 12 7 ltac:(lia)) as HC0. fold (pow_C w) in HC0.
  unfold pow_post. rewrite decode_and_execute_one_spec. unfold exec_spec.
  rewrite Hop. cbn [Z.eqb Pos.eqb].
  rewrite !(proj2 (Z.leb_gt _ _)) by done.
  rewrite !(proj2 (in_range_true _ _)) by done. cbn [negb].
  rewrite int_pow_nonneg_exponent by done.
  eexists. split; [reflexivity|]. cbn [regs mem set_regs].
  unfold len in HC.
  split; [apply list_lookup_insert_eq; lia|].
  split; [intros i Hi; by apply list_lookup_insert_ne|].
  split; [apply length_insert|reflexivity].
Qed.

Lemma pow_exact_witness : pow_post w_pow st_pow.
Proof.
  apply pow_exact.
  - unfold pow_pre. vm_compute. intuition congruence.
  - vm_compute. congruence.
Defined.

(** C2 as stated fails on a state whose exponent cell is negative: with
    base 0 and exponent -1 the instruction raises ZeroDivisionError and
    reg[C] is not written. *)
Lemma pow_negative_exponent :
  pow_pre 54 st_negative_exponent /\ ~ pow_post 54 st_negative_exponent.
Proof.
  split.
  - unfold pow_pre. vm_compute. intuition congruence.
  - intros (st' & H & _). vm_compute in H. discriminate.
Qed.

End OneInstruction.

(* ===================================================================== *)
(** * The execution loop                                                  *)
(* ===================================================================== *)

Section Loop.

Implicit Types (w : Z) (st : state) (fuel : nat) (tr : list event).

(** An instruction touches neither the program counter nor the program
    length nor the size of either array. *)
Lemma decode_frame w st st' r :
  decode_and_execute_one w st = (st', r) ->
  pc st' = pc st /\ program_len st' = program_len st /\
  len (regs st') = len (regs st) /\ len (mem st') = len (mem st).
Proof.
  rewrite decode_and_execute_one_spec. intros H.
  apply exec_spec_effect in H. destruct r as [[]|e].
  - destruct H as [(i & v & _ & ->)|(a & v & _ & ->)]; cbn;
      by rewrite ?len_insert.
  - by subst.
Qed.

Lemma decode_errors w st st' e :
  decode_and_execute_one w st = (st', Err e) -> instruction_error e.
Proof.
  rewrite decode_and_execute_one_spec. unfold exec_spec, instruction_error.
  intros H.
  repeat case_match; simplify_eq; cbn; eauto.
  match goal with H : int_pow _ _ = Err _ |- _ =>
    apply int_pow_errors in H end. tauto.
Qed.

(** One unfolding of the loop. *)
Lemma exec_loop_halted fuel st :
  program_len st <= pc st -> exec_loop fuel st = ([], Returned st).
Proof.
  intros H. destruct fuel; cbn [exec_loop];
    by rewrite (proj2 (Z.ltb_ge _ _)) by done.
Qed.

Lemma exec_loop_running fuel st :
  pc st < program_len st ->
  exec_loop (S fuel) st =
  match getitem (mem st) (pc st) with
  | Err e => ([], Raised e)
  | Ok instr =>
      let ev := mk_event (pc st) instr (pc st + 1) in
      match decode_and_execute_one instr (set_pc (pc st + 1) st) with
      | (st2, Ok _) => let (tr, o) := exec_loop fuel st2 in (ev :: tr, o)
      | (_, Err e) => ([ev], Raised e)
      end
  end.
Proof.
  intros H. cbn [exec_loop]. by rewrite (proj2 (Z.ltb_lt _ _)) by done.
Qed.

(** The iterations of the loop fetch consecutive addresses, each
    instruction runs with the counter already one past its own address,
    and a loop that returns stops exactly at the program length. *)
Lemma exec_loop_trace fuel : forall st tr o,
  exec_loop fuel st = (tr, o) ->
  map ev_addr tr = seqZ (pc st) (len tr) /\
  Forall (fun ev => ev_pc ev = ev_addr ev + 1) tr /\
  forall st', o = Returned st' ->
    program_len st' = program_len st /\
    pc st' = Z.max (pc st) (program_len st) /\
    len tr = pc st' - pc st.
Proof.
  induction fuel as [|fuel IH]; intros st tr o Hrun.
  - cbn [exec_loop] in Hrun.
    destruct (Z.ltb_spec (pc st) (program_len st)); simplify_eq.
    + split; [done|]. split; [constructor|done].
    + split; [done|]. split; [constructor|].
      intros st' [= <-]. unfold len. cbn. lia.
  - destruct (Z.ltb_spec (pc st) (program_len st)) as [Hlt|Hge].
    2:{ rewrite exec_loop_halted in Hrun by done. simplify_eq.
        split; [done|]. split; [constructor|].
        intros st' [= <-]. unfold len. cbn. lia. }
    rewrite exec_loop_running in Hrun by done.
    destruct (getitem (mem st) (pc st)) as [instr|e]; simplify_eq.
    2:{ split; [done|]. split; [constructor|done]. }
    cbv zeta in Hrun.
    destruct (decode_and_execute_one instr (set_pc (pc st + 1) st))
      as [st2 [[]|e]] eqn:Hdec; simplify_eq.
    2:{ split; [done|]. split; [by repeat constructor|done]. }
    apply decode_frame in Hdec as (Hpc & Hlen & _ & _). cbn in Hpc, Hlen.
    destruct (exec_loop fuel st2) as [tr' o'] eqn:Hrest. simplify_eq.
    apply IH in Hrest as (Haddr & Hpcs & Hret).
    unfold len in *. cbn [map length ev_addr].
    split.
    { rewrite seqZ_cons by lia. f_equal. rewrite Haddr, Hpc. f_equal; lia. }
    split; [by constructor|].
    intros st' ->. destruct (Hret st' eq_refl) as (-> & -> & Hn).
    rewrite Hlen, Hpc in *. lia.
Qed.

(** The loop needs no more iterations than there are words left. *)
Lemma exec_loop_enough_fuel fuel : forall st,
  (Z.to_nat (program_len st - pc st) <= fuel)%nat ->
  (exec_loop fuel st).2 <> OutOfFuel.
Proof.
  induction fuel as [|fuel IH]; intros st Hfuel.
  - rewrite exec_loop_halted by lia. done.
  - destruct (Z.ltb_spec (pc st) (program_len st)) as [Hlt|Hge].
    2:{ by rewrite exec_loop_halted. }
    rewrite exec_loop_running by done.
    destruct (getitem (mem st) (pc st)) as [instr|e]; [|done].
    cbv zeta.
    destruct (decode_and_execute_one instr (set_pc (pc st + 1) st))
      as [st2 [[]|e]] eqn:Hdec; [|done].
    apply decode_frame in Hdec as (Hpc & Hlen & _ & _). cbn in Hpc, Hlen.
    specialize (IH st2). destruct (exec_loop fuel st2) as [tr' o'].
    cbn in *. apply IH. lia.
Qed.

(** More fuel does not change a run that finished. *)
Lemma exec_loop_more_fuel fuel : forall st tr o fuel',
  exec_loop fuel st = (tr, o) -> o <> OutOfFuel -> (fuel <= fuel')%nat ->
  exec_loop fuel' st = (tr, o).
Proof.
  induction fuel as [|fuel IH]; intros st tr o fuel' Hrun Ho Hle.
  - cbn [exec_loop] in Hrun.
    destruct (Z.ltb_spec (pc st) (program_len st)); simplify_eq.
    by apply exec_loop_halted.
  - destruct (Z.ltb_spec (pc st) (program_len st)) as [Hlt|Hge].
    2:{ rewrite exec_loop_halted in Hrun by done.
        by rewrite exec_loop_halted. }
    destruct fuel' as [|fuel']; [lia|].
    rewrite exec_loop_running in Hrun |- * by done.
    destruct (getitem (mem st) (pc st)) as [instr|e]; [|done].
    cbv zeta in *.
    destruct (decode_and_execute_one instr (set_pc (pc st + 1) st))
      as [st2 [[]|e]]; [|done].
    destruct (exec_loop fuel st2) as [tr' o'] eqn:Hrest. simplify_eq.
    by rewrite (IH st2 tr' o fuel') by (done || lia).
Qed.

(** The exceptions that can escape the loop. *)
Lemma exec_loop_errors fuel : forall st tr e,
  exec_loop fuel st = (tr, Raised e) ->
  e = IndexError_list \/ instruction_error e.
Proof.
  induction fuel as [|fuel IH]; intros st tr e Hrun.
  - cbn [exec_loop] in Hrun. by case_match.
  - destruct (Z.ltb_spec (pc st) (program_len st)) as [Hlt|Hge].
    2:{ by rewrite exec_loop_halted in Hrun. }
    rewrite exec_loop_running in Hrun by done.
    destruct (getitem (mem st) (pc st)) as [instr|e'] eqn:Hget.
    2:{ simplify_eq. left. unfold getitem in Hget.
        repeat case_match; by simplify_eq. }
    cbv zeta in Hrun.
    destruct (decode_and_execute_one instr (set_pc (pc st + 1) st))
      as [st2 [[]|e']] eqn:Hdec.
    + destruct (exec_loop fuel st2) as [tr' o'] eqn:Hrest. simplify_eq. eauto.
    + simplify_eq. right. by eapply decode_errors.
Qed.

End Loop.

(* ===================================================================== *)
(** * Loading and running a binary                                        *)
(* ===================================================================== *)

Section Run.

Implicit Types (w : Z) (st : state) (fuel : nat) (tr : list event)
  (code_bytes : list byte) (mem_size regs_count : Z).

Lemma len_nonneg {A} (l : list A) : 0 <= len l.
Proof. unfold len. lia. Qed.

Lemma len_list_repeat (x : Z) (n : Z) : len (list_repeat x n) = Z.max 0 n.
Proof. unfold len, list_repeat. rewrite repeat_length. lia. Qed.

Lemma len_program_words code_bytes :
  len code_bytes mod 4 = 0 ->
  len (program_words code_bytes) = len code_bytes / 4.
Proof.
  intros Hal. unfold program_words, range, len at 1.
  rewrite !length_map, length_seq. unfold INSTR_SIZE.
  pose proof (len_nonneg code_bytes).
  replace (len code_bytes - 0 + 4 - 1) with (len code_bytes + 3) by lia.
  assert ((len code_bytes + 3) / 4 = len code_bytes / 4) as ->.
  { rewrite (Z.div_mod (len code_bytes) 4) at 1 by lia. rewrite Hal.
    replace (4 * (len code_bytes / 4) + 0 + 3)
      with (3 + (len code_bytes / 4) * 4) by lia.
    rewrite Z.div_add by lia. reflexivity. }
  apply Z2Nat.id. apply Z.div_pos; lia.
Qed.

(** Loading inside memory succeeds and keeps the size of memory. *)
Lemma load_program_ok (ws : list Z) : forall (i : Z) (m : list Z),
  0 <= i -> i + len ws <= len m ->
  exists m', load_program i ws m = Ok m' /\ len m' = len m /\
             (Forall (fun v => 0 <= v) ws -> Forall (fun v => 0 <= v) m ->
              Forall (fun v => 0 <= v) m').
Proof.
  induction ws as [|w ws IH]; intros i m Hi Hlen.
  - exists m. by cbn.
  - unfold len in Hlen. cbn [length] in Hlen. cbn [load_program].
    rewrite setitem_in_range by (unfold len; lia). cbn.
    destruct (IH (i + 1) (<[Z.to_nat i := w]> m)) as (m' & Hm' & Hl & Hnn).
    { lia. } { rewrite len_insert. unfold len. lia. }
    exists m'. split; [done|]. split; [by rewrite Hl, len_insert|].
    intros Hws Hm. apply Forall_cons in Hws as [Hw Hws].
    apply Hnn; [done|]. by apply Forall_insert.
Qed.

(** The ways [run_binary_bytes] can go. *)
Lemma run_binary_bytes_cases fuel code_bytes mem_size regs_count :
  (len code_bytes mod 4 <> 0 /\
   run_binary_bytes fuel code_bytes mem_size regs_count
   = ([], Raised ValueError_alignment)) \/
  (len code_bytes mod 4 = 0 /\
   mem_size < len (program_words code_bytes) /\
   run_binary_bytes fuel code_bytes mem_size regs_count
   = ([], Raised (MemoryError_too_large (len (program_words code_bytes))
                                        mem_size))) \/
  (len code_bytes mod 4 = 0 /\
   exists st0, initial_state code_bytes mem_size regs_count = Some st0 /\
     pc st0 = 0 /\ program_len st0 = len (program_words code_bytes) /\
     run_binary_bytes fuel code_bytes mem_size regs_count
     = exec_loop fuel st0).
Proof.
  unfold run_binary_bytes, initial_state, INSTR_SIZE.
  destruct (Z.eqb_spec (len code_bytes mod 4) 0) as [Hal|Hal]; cbn [negb].
  2:{ by left. }
  right. cbn [program_len mem].
  destruct (Z.ltb_spec mem_size (len (program_words code_bytes))) as [Hbig|Hfit].
  { by left. }
  right. split; [done|].
  destruct (load_program_ok (program_words code_bytes) 0
              (list_repeat 0 mem_size)) as (m & -> & _); [lia| |].
  { rewrite len_list_repeat. lia. }
  eexists. split; [reflexivity|]. by cbn.
Qed.

(** C4: for every program of n loaded words that executes without error,
    the loop performs exactly n fetch-decode-execute steps, fetching the
    addresses 0, 1, ..., n-1 in increasing order, each instruction
    executing with the program counter already incremented by 1, and halts
    with the program counter equal to n; n steps are always enough.  The
    number of steps of a returning loop is fixed by the program length and
    the program counter alone, whatever memory holds, so stores into the
    program's address range change neither the count nor the halt. *)
Theorem straight_line_execution fuel code_bytes mem_size regs_count n :
  len (program_words code_bytes) = n ->
  (forall tr st,
     run_binary_bytes fuel code_bytes mem_size regs_count = (tr, Returned st) ->
     len code_bytes = 4 * n /\
     len tr = n /\
     map ev_addr tr = seqZ 0 n /\
     Forall (fun ev => ev_pc ev = ev_addr ev + 1) tr /\
     pc st = n /\ program_len st = n) /\
  ((Z.to_nat n <= fuel)%nat ->
   (run_binary_bytes fuel code_bytes mem_size regs_count).2 <> OutOfFuel) /\
  (forall st0 tr st,
     exec_loop fuel st0 = (tr, Returned st) ->
     len tr = Z.max 0 (program_len st0 - pc st0) /\
     program_len st = program_len st0).
Proof.
  intros Hn.
  pose proof (len_nonneg (program_words code_bytes)) as Hn0.
  assert (forall st0 tr st,
            exec_loop fuel st0 = (tr, Returned st) ->
            len tr = Z.max 0 (program_len st0 - pc st0) /\
            program_len st = program_len st0) as Hany.
  { intros st0 tr st Hloop.
    apply exec_loop_trace in Hloop as (_ & _ & Hret).
    destruct (Hret st eq_refl) as (Hl & Hp & Hc). lia. }
  split; [|split; [|exact Hany]];
    destruct (run_binary_bytes_cases fuel code_bytes mem_size regs_count)
      as [[_ Hrun]|[(_ & _ & Hrun)|(Hal & st0 & _ & Hpc & Hlen & Hrun)]];
    rewrite Hrun; try done.
  - intros tr st Hloop.
    apply exec_loop_trace in Hloop as (Haddr & Hpcs & Hret).
    destruct (Hret st eq_refl) as (Hl & Hp & Hc).
    rewrite Hpc, Hlen, Hn in *.
    assert (len tr = n) as Htr by lia. rewrite Htr in Haddr.
    rewrite len_program_words in Hn by done.
    repeat split; try done; try lia.
    rewrite (Z.div_mod (len code_bytes) 4) by lia. lia.
  - intros Hfuel. apply exec_loop_enough_fuel. rewrite Hpc, Hlen, Hn. lia.
Qed.

(** C8: executing a byte stream whose length is not a multiple of 4
    raises the alignment error, with no iteration of the loop performed
    and whatever the memory size, the register count and the step bound
    (the state is never built); a byte stream whose length is a multiple
    of 4 never raises it. *)
Theorem alignment_error fuel code_bytes mem_size regs_count :
  (len code_bytes mod 4 <> 0 ->
   run_binary_bytes fuel code_bytes mem_size regs_count
   = ([], Raised ValueError_alignment)) /\
  (len code_bytes mod 4 = 0 ->
   (run_binary_bytes fuel code_bytes mem_size regs_count).2
   <> Raised ValueError_alignment).
Proof.
  destruct (run_binary_bytes_cases fuel code_bytes mem_size regs_count)
    as [[Hal Hrun]|[(Hal & _ & Hrun)|(Hal & st0 & _ & _ & _ & Hrun)]];
    rewrite Hrun; split; try done.
  intros _. destruct (exec_loop fuel st0) as [tr o] eqn:Hloop. cbn.
  intros ->. apply exec_loop_errors in Hloop as [?|Herr]; [done|].
  destruct Herr as [?|[[A ?]|[?|?]]]; done.
Qed.

Lemma straight_line_execution_witness :
  len (program_words scenario_A_bytes) = 4 /\
  exists tr st,
    run_binary_bytes 4 scenario_A_bytes 128 4 = (tr, Returned st) /\
    len tr = 4 /\ map ev_addr tr = seqZ 0 4 /\ pc st = 4.
Proof.
  split; [reflexivity|].
  eexists _, _. split; [vm_compute; reflexivity|].
  destruct (straight_line_execution 4 scenario_A_bytes 128 4 4 eq_refl)
    as (Hret & _ & _).
  edestruct Hret as (_ & Hl & Ha & _ & Hp & _); [vm_compute; reflexivity|].
  exact (conj Hl (conj Ha Hp)).
Defined.

Lemma alignment_error_witness :
  len [x0d; xb0; x07] mod 4 <> 0 /\
  run_binary_bytes 0 [x0d; xb0; x07] 8 2 = ([], Raised ValueError_alignment).
Proof.
  split; [vm_compute; discriminate|].
  apply (alignment_error 0 [x0d; xb0; x07] 8 2). vm_compute. discriminate.
Defined.

(** Outcome of one instruction against the bounds rule. *)
Lemma exec_spec_access w st0 :
  match exec_spec w st0 with
  | (st', Ok _) => access_ok w st0 = true
  | (st', Err e) =>
      st' = st0 /\
      if access_ok w st0 then class_of e <> ClsIndexError
      else is_out_of_bounds e
  end.
Proof.
  unfold exec_spec, access_ok, in_range.
  pose proof (fld_nonneg w 5 7 ltac:(lia)).
  pose proof (fld_nonneg w 12 7 ltac:(lia)).
  pose proof (fld_nonneg w 12 14 ltac:(lia)).
  pose proof (fld_nonneg w 25 7 ltac:(lia)).
  unfold pow_B, pow_C, pow_E in *.
  destruct (opcode w =? 13); [|destruct (opcode w =? 26);
     [|destruct (opcode w =? 15); [|destruct (opcode w =? 22)]]];
  repeat (match goal with
      | |- context [?a <=? ?b] => destruct (Z.leb_spec a b)
      | |- context [?a <? ?b] => destruct (Z.ltb_spec a b)
      end; try lia; cbv beta iota; cbn [negb andb orb]); try done.
  destruct (int_pow _ _) as [r|e] eqn:Hpow; [done|].
  split; [done|]. by apply int_pow_errors in Hpow as [->| ->].
Qed.

(** C6: every register index an instruction uses is checked against the
    register count, and every memory address READ_MEM, WRITE_MEM or POW
    uses is checked against the memory size, before the access: an
    instruction that violates the bounds rule raises one of the explicit
    out-of-bounds errors with the store untouched; the only IndexErrors an
    instruction raises are these, and only on a violation; an instruction
    that returns satisfied the rule; and the loop iteration that meets a
    violation ends the run with that error, no state returned. *)
Theorem bounds_checked_before_access w st :
  (access_ok w st = false ->
   exists e, decode_and_execute_one w st = (st, Err e) /\ is_out_of_bounds e) /\
  (forall st' e,
     decode_and_execute_one w st = (st', Err e) ->
     class_of e = ClsIndexError ->
     access_ok w st = false /\ is_out_of_bounds e) /\
  (forall st', decode_and_execute_one w st = (st', Ok tt) ->
               access_ok w st = true) /\
  (forall fuel,
     pc st < program_len st ->
     getitem (mem st) (pc st) = Ok w ->
     access_ok w (set_pc (pc st + 1) st) = false ->
     exists e,
       exec_loop (S fuel) st = ([mk_event (pc st) w (pc st + 1)], Raised e) /\
       is_out_of_bounds e).
Proof.
  pose proof (exec_spec_access w) as Hspec.
  split; [|split; [|split]].
  - intros Hbad. specialize (Hspec st).
    rewrite decode_and_execute_one_spec.
    destruct (exec_spec w st) as [st' [[]|e]]; [congruence|].
    destruct Hspec as [-> He]. rewrite Hbad in He. eauto.
  - intros st' e Hdec Hcls. specialize (Hspec st).
    rewrite <- decode_and_execute_one_spec, Hdec in Hspec.
    destruct Hspec as [_ He]. destruct (access_ok w st); [done|]. done.
  - intros st' Hdec. specialize (Hspec st).
    by rewrite <- decode_and_execute_one_spec, Hdec in Hspec.
  - intros fuel Hrun Hget Hbad. specialize (Hspec (set_pc (pc st + 1) st)).
    rewrite exec_loop_running, Hget by done. cbv zeta.
    rewrite decode_and_execute_one_spec.
    destruct (exec_spec w _) as [st' [[]|e]]; [congruence|].
    destruct Hspec as [_ He]. rewrite Hbad in He. eauto.
Qed.

Lemma bounds_checked_before_access_witness :
  access_ok 26 st_fetch_oob = false /\
  exists e,
    exec_loop 2 st_fetch_oob = ([mk_event 0 26 1], Raised e) /\
    is_out_of_bounds e.
Proof.
  split; [reflexivity|].
  destruct (bounds_checked_before_access 26 st_fetch_oob) as (_ & _ & _ & H).
  apply (H 1%nat); [vm_compute; reflexivity | reflexivity | reflexivity].
Defined.

End Run.

(* ===================================================================== *)
(** * Non-negativity of reachable states                                  *)
(* ===================================================================== *)

Section NonNegative.

Implicit Types (w : Z) (st : state) (l : list Z).

Lemma rd_nonneg l i : Forall (fun v => 0 <= v) l -> 0 <= rd l i.
Proof.
  intros Hl. unfold rd.
  destruct (l !! Z.to_nat i) as [v|] eqn:Hv; cbn; [|lia].
  by eapply (Forall_lookup_1 _ _ _ _ Hl Hv).
Qed.

Lemma from_bytes_little_nonneg (bs : list byte) : 0 <= from_bytes_little bs.
Proof.
  induction bs as [|b bs IH]; [done|].
  change (from_bytes_little (b :: bs))
    with (Z.of_N (Byte.to_N b) + 256 * from_bytes_little bs).
  pose proof (N2Z.is_nonneg (Byte.to_N b)). lia.
Qed.

Lemma program_words_nonneg (code_bytes : list byte) :
  Forall (fun v => 0 <= v) (program_words code_bytes).
Proof.
  unfold program_words. apply Forall_forall. intros v Hv.
  apply list_elem_of_In, in_map_iff in Hv as (i & <- & _).
  apply from_bytes_little_nonneg.
Qed.

Lemma list_repeat_zero_nonneg (n : Z) :
  Forall (fun v => 0 <= v) (list_repeat 0 n).
Proof.
  unfold list_repeat. apply Forall_forall. intros v Hv.
  apply list_elem_of_In, repeat_spec in Hv. lia.
Qed.

Lemma initial_state_nonneg code_bytes mem_size regs_count st :
  initial_state code_bytes mem_size regs_count = Some st -> nonneg_state st.
Proof.
  unfold initial_state. intros H.
  destruct (negb _); [done|].
  destruct (Z.ltb_spec mem_size (len (program_words code_bytes))); [done|].
  destruct (load_program_ok (program_words code_bytes) 0
              (list_repeat 0 mem_size)) as (m & Hm & _ & Hnn); [lia| |].
  { rewrite len_list_repeat. lia. }
  rewrite Hm in H. simplify_eq. split; cbn.
  - apply list_repeat_zero_nonneg.
  - apply Hnn; [apply program_words_nonneg|apply list_repeat_zero_nonneg].
Qed.

(** One instruction keeps every cell non-negative, and on such a state
    POW never leaves the exact integer power. *)
Lemma exec_spec_nonneg w st st' r :
  nonneg_state st ->
  exec_spec w st = (st', r) ->
  nonneg_state st' /\
  forall e, r = Err e ->
    is_out_of_bounds e \/ exists A, e = ValueError_unknown_opcode A.
Proof.
  intros [Hr Hm] H. unfold exec_spec in H.
  pose proof (rd_nonneg (mem st) (pow_addr2 w st) Hm) as Hexp.
  fold (pow_op2 w st) in Hexp.
  rewrite (int_pow_nonneg_exponent _ _ Hexp) in H.
  repeat case_match; simplify_eq; (split; [|intros e' [= <-]; cbn; eauto]);
    try done; split; cbn; try done; apply Forall_insert; try done.
  - apply fld_nonneg; lia.
  - by apply rd_nonneg.
  - by apply rd_nonneg.
  - apply Z.pow_nonneg. by apply rd_nonneg.
Qed.

Lemma loop_step_nonneg st st' :
  nonneg_state st -> loop_step st st' -> nonneg_state st'.
Proof.
  intros Hnn (_ & instr & _ & Hdec).
  rewrite decode_and_execute_one_spec in Hdec.
  by apply exec_spec_nonneg in Hdec as [? _].
Qed.

Lemma exec_loop_reachable code_bytes mem_size regs_count fuel :
  forall st tr st',
    reachable code_bytes mem_size regs_count st ->
    exec_loop fuel st = (tr, Returned st') ->
    reachable code_bytes mem_size regs_count st'.
Proof.
  induction fuel as [|fuel IH]; intros st tr st' Hreach Hrun.
  - cbn [exec_loop] in Hrun. case_match; by simplify_eq.
  - destruct (Z.ltb_spec (pc st) (program_len st)) as [Hlt|Hge].
    2:{ rewrite exec_loop_halted in Hrun by done. by simplify_eq. }
    rewrite exec_loop_running in Hrun by done.
    destruct (getitem (mem st) (pc st)) as [instr|e] eqn:Hget; [|done].
    cbv zeta in Hrun.
    destruct (decode_and_execute_one instr (set_pc (pc st + 1) st))
      as [st2 [[]|e]] eqn:Hdec; [|done].
    destruct (exec_loop fuel st2) as [tr' o'] eqn:Hrest. simplify_eq.
    apply (IH st2 tr'); [|done].
    apply (reach_step _ _ _ st); [done|]. split; [done|]. eauto.
Qed.

(** C9: for every binary program, every state reachable by error-free
    iterations from the state the execute entry point builds (registers
    and memory all zero, then the program words loaded) has every
    register and every memory cell non-negative; in particular the
    exponent operand mem[reg[B]] of any POW is never negative there, so an
    instruction executed in such a state never raises the errors of the
    negative-exponent path; and the state a run returns is reachable. *)
Theorem reachable_states_nonneg code_bytes mem_size regs_count :
  (forall st,
     reachable code_bytes mem_size regs_count st ->
     nonneg_state st /\
     (forall w, 0 <= pow_op2 w st) /\
     (forall w st' e,
        decode_and_execute_one w (set_pc (pc st + 1) st) = (st', Err e) ->
        is_out_of_bounds e \/ exists A, e = ValueError_unknown_opcode A)) /\
  (forall fuel tr st,
     run_binary_bytes fuel code_bytes mem_size regs_count = (tr, Returned st) ->
     reachable code_bytes mem_size regs_count st).
Proof.
  assert (forall st, reachable code_bytes mem_size regs_count st ->
                     nonneg_state st) as Hinv.
  { induction 1 as [st Hinit|st st' _ IH Hstep].
    - by eapply initial_state_nonneg.
    - by eapply loop_step_nonneg. }
  split.
  - intros st Hreach. pose proof (Hinv st Hreach) as Hnn.
    split; [done|]. split.
    + intros w. apply rd_nonneg, Hnn.
    + intros w st' e Hdec. rewrite decode_and_execute_one_spec in Hdec.
      apply exec_spec_nonneg in Hdec as [_ He]; [by apply He|].
      destruct Hnn. by split.
  - intros fuel tr st Hrun.
    destruct (run_binary_bytes_cases fuel code_bytes mem_size regs_count)
      as [[_ Hr]|[(_ & _ & Hr)|(_ & st0 & Hinit & _ & _ & Hr)]];
      rewrite Hr in Hrun; try done.
    eapply exec_loop_reachable; [|done]. by apply reach_init.
Qed.

Lemma reachable_states_nonneg_witness :
  exists tr st,
    run_binary_bytes 4 scenario_A_bytes 128 4 = (tr, Returned st) /\
    nonneg_state st.
Proof.
  eexists _, _. split; [vm_compute; reflexivity|].
  destruct (reachable_states_nonneg scenario_A_bytes 128 4) as [Hinv Hrun].
  apply Hinv. eapply (Hrun 4%nat). vm_compute. reflexivity.
Defined.

End NonNegative.

(* ===================================================================== *)
(** * The textual-to-IR translator                                        *)
(* ===================================================================== *)

Section Translator.
Context {ops : StrOps}.

Implicit Types (row : list string) (rows : list (list string)).

Lemma len_cons {A} (x : A) (l : list A) : len (x :: l) = 1 + len l.
Proof. unfold len. cbn [length]. lia. Qed.

Lemma len_nil {A} : len (@nil A) = 0.
Proof. reflexivity. Qed.

Lemma getitem_lookup {A} (l : list A) (i : Z) (x : A) :
  0 <= i -> l !! Z.to_nat i = Some x -> getitem l i = Ok x.
Proof.
  intros Hi Hx. pose proof (lookup_lt_Some _ _ _ Hx) as Hlt.
  unfold getitem.
  rewrite (proj2 (Z.ltb_ge i 0)) by lia. cbv zeta iota.
  rewrite (proj2 (Z.ltb_ge i 0)) by lia.
  rewrite (proj2 (Z.leb_gt (len l) i)) by (unfold len; lia).
  cbn [orb]. by rewrite Hx.
Qed.

Lemma int_of_str_cases (s : string) :
  match int_of_str s with
  | Ok z => str_int s = Some z
  | Err e => str_int s = None /\ is_validation e
  end.
Proof. unfold int_of_str. by destruct (str_int s). Qed.

Lemma len_exact {A} (l : list A) (n : nat) :
  len l = Z.of_nat n -> length l = n.
Proof. unfold len. lia. Qed.

(** Parse the next operand; a failure settles the goal. *)
Ltac parse_arg a :=
  let z := fresh "z" in let e := fresh "e" in
  let Hz := fresh "Hz" in let He := fresh "He" in
  pose proof (int_of_str_cases a) as Hz;
  destruct (int_of_str a) as [z|e];
  [ rewrite Hz
  | destruct Hz as [Hz He]; rewrite Hz; cbn;
    rewrite ?andb_false_r; by split ].

(** Settle the arity test of a mnemonic that takes [k] operands. *)
Ltac arity_test args n k :=
  rewrite len_cons;
  destruct (Z.eqb_spec (1 + len args) n) as [Hn|Hn];
  destruct (Z.eqb_spec (len args) k) as [Hk|Hk]; try lia;
  cbn [negb andb mbind result_bind]; [|done].

Lemma to_ir_row_spec idx r0 args :
  match to_ir_row idx (r0 :: args) with
  | Ok i => row_ok (r0 :: args) = true /\ row_describes (r0 :: args) i
  | Err e => row_ok (r0 :: args) = false /\ is_validation e
  end.
Proof.
  unfold to_ir_row.
  rewrite (getitem_lookup (r0 :: args) 0 r0) by done.
  cbn [mbind result_bind]. unfold row_ok, arity, need.
  destruct (String.eqb_spec (str_upper r0) "LOAD_CONST") as [Hcmd|_].
  { arity_test args 3 2.
    apply (len_exact _ 2) in Hk.
    destruct args as [|a1 [|a2 [|a3 args]]]; try done. cbn [forallb].
    rewrite (getitem_lookup _ 1 a1) by done. cbn [mbind result_bind].
    parse_arg a1.
    rewrite (getitem_lookup _ 2 a2) by done. cbn [mbind result_bind].
    parse_arg a2.
    split; [done|]. exists r0, [a1; a2]. cbn [map]. rewrite Hz, Hz0.
    by vm_compute. }
  destruct (String.eqb_spec (str_upper r0) "READ_MEM") as [Hcmd|_].
  { arity_test args 4 3.
    apply (len_exact _ 3) in Hk.
    destruct args as [|a1 [|a2 [|a3 [|a4 args]]]]; try done. cbn [forallb].
    rewrite (getitem_lookup _ 1 a1) by done. cbn [mbind result_bind].
    parse_arg a1.
    rewrite (getitem_lookup _ 2 a2) by done. cbn [mbind result_bind].
    parse_arg a2.
    rewrite (getitem_lookup _ 3 a3) by done. cbn [mbind result_bind].
    parse_arg a3.
    split; [done|]. exists r0, [a1; a2; a3]. cbn [map]. rewrite Hz, Hz0, Hz1.
    by vm_compute. }
  destruct (String.eqb_spec (str_upper r0) "WRITE_MEM") as [Hcmd|_].
  { arity_test args 3 2.
    apply (len_exact _ 2) in Hk.
    destruct args as [|a1 [|a2 [|a3 args]]]; try done. cbn [forallb].
    rewrite (getitem_lookup _ 1 a1) by done. cbn [mbind result_bind].
    parse_arg a1.
    rewrite (getitem_lookup _ 2 a2) by done. cbn [mbind result_bind].
    parse_arg a2.
    split; [done|]. exists r0, [a1; a2]. cbn [map]. rewrite Hz, Hz0.
    by vm_compute. }
  destruct (String.eqb_spec (str_upper r0) "POW") as [Hcmd|_]; [|done].
  arity_test args 5 4.
  apply (len_exact _ 4) in Hk.
  destruct args as [|a1 [|a2 [|a3 [|a4 [|a5 args]]]]]; try done. cbn [forallb].
  rewrite (getitem_lookup _ 1 a1) by done. cbn [mbind result_bind].
  parse_arg a1.
  rewrite (getitem_lookup _ 2 a2) by done. cbn [mbind result_bind].
  parse_arg a2.
  rewrite (getitem_lookup _ 3 a3) by done. cbn [mbind result_bind].
  parse_arg a3.
  rewrite (getitem_lookup _ 4 a4) by done. cbn [mbind result_bind].
  parse_arg a4.
  split; [done|]. exists r0, [a1; a2; a3; a4]. cbn [map].
  rewrite Hz, Hz0, Hz1, Hz2. by vm_compute.
Qed.

(** One row, empty or not. *)
Lemma to_ir_row_cases idx row :
  match to_ir_row idx row with
  | Ok i => row_ok row = true /\ row_describes row i
  | Err e => row_ok row = false /\ (row <> [] -> is_validation e)
  end.
Proof.
  destruct row as [|r0 args]; [by split|].
  pose proof (to_ir_row_spec idx r0 args) as H.
  destruct (to_ir_row idx (r0 :: args)); [done|]. by destruct H.
Qed.

(** The loop appends one record per row, in row order, and stops at the
    first row that is not accepted. *)
Lemma to_ir_loop_spec rows : forall acc idx,
  match to_ir_loop acc idx rows with
  | Ok irs =>
      Forall (fun row => row_ok row = true) rows /\
      exists new, irs = acc ++ new /\ Forall2 row_describes rows new
  | Err e =>
      Exists (fun row => row_ok row = false) rows /\
      (Forall (fun row => row <> []) rows -> is_validation e)
  end.
Proof.
  induction rows as [|row rows IH]; intros acc idx; cbn [to_ir_loop].
  - split; [constructor|]. exists []. by rewrite app_nil_r.
  - pose proof (to_ir_row_cases idx row) as Hrow.
    destruct (to_ir_row idx row) as [i|e]; cbn [mbind result_bind].
    + destruct Hrow as [Hok Hdesc].
      specialize (IH (acc ++ [i]) (idx + 1)).
      destruct (to_ir_loop (acc ++ [i]) (idx + 1) rows) as [irs|e].
      * destruct IH as (Hall & new & -> & Hnew).
        split; [by constructor|]. exists (i :: new).
        split; [by rewrite <- app_assoc|by constructor].
      * destruct IH as [Hex Hval]. split; [by apply Exists_cons_tl|].
        intros Hne. apply Hval. by apply Forall_cons in Hne as [_ ?].
    + destruct Hrow as [Hbad Hval]. split; [by apply Exists_cons_hd|].
      intros Hne. apply Hval. by apply Forall_cons in Hne as [? _].
Qed.

Lemma is_validation_class (e : exn) :
  is_validation e -> class_of e = ClsValueError.
Proof. by destruct e. Qed.

(** Every row source of the repository hands [to_ir] non-empty rows;
    here the one of [parse_csv_program]. *)
Lemma program_rows_nonempty (reader : list (list string)) :
  Forall (fun row => row <> []) (program_rows reader).
Proof.
  induction reader as [|row reader IH]; cbn [program_rows]; [constructor|].
  destruct row as [|r0 row]; [done|].
  destruct (_ || _); [done|].
  destruct (Z.eqb_spec (len (map str_strip (r0 :: row))) 0); [done|].
  by constructor.
Qed.

(** C7: on the rows it is handed (none of them empty: blank rows are
    skipped before translation), the translator fails exactly when some
    row is not accepted, that is when its mnemonic, upper-cased, is not
    one of the four known ones, or its operand count is not the one
    required (LOAD_CONST 2, READ_MEM 3, WRITE_MEM 2, POW 4), or some
    operand does not parse as an integer; the failure is then one of the
    validation errors, a ValueError; otherwise it returns exactly one
    record per row, the i-th record carrying the mnemonic and the
    operands of the i-th row. *)
Theorem translator_validation rows :
  Forall (fun row => row <> []) rows ->
  ((exists e, to_ir rows = Err e) <->
   Exists (fun row => row_ok row = false) rows) /\
  (forall e, to_ir rows = Err e ->
             is_validation e /\ class_of e = ClsValueError) /\
  (~ Exists (fun row => row_ok row = false) rows ->
   exists irs, to_ir rows = Ok irs /\
               length irs = length rows /\
               Forall2 row_describes rows irs).
Proof.
  intros Hne. unfold to_ir.
  pose proof (to_ir_loop_spec rows [] 0) as H.
  destruct (to_ir_loop [] 0 rows) as [irs|e].
  - destruct H as (Hall & new & -> & Hnew). cbn [app].
    split; [|split].
    + split; [by intros [e ?]|].
      intros Hex. apply Exists_exists in Hex as (row & Hin & Hbad).
      rewrite Forall_forall in Hall. specialize (Hall row Hin). congruence.
    + done.
    + intros _. exists new. split; [done|].
      split; [symmetry; by eapply Forall2_length|done].
  - destruct H as [Hex Hval]. specialize (Hval Hne).
    split; [|split].
    + split; [done|]. intros _. by exists e.
    + intros e' [= <-]. split; [done|]. by apply is_validation_class.
    + done.
Qed.

End Translator.

Lemma translator_validation_witness :
  exists irs, @to_ir ascii_str_ops scenario_A = Ok irs /\
              length irs = length scenario_A /\
              Forall2 (@row_describes ascii_str_ops) scenario_A irs.
Proof.
  apply (@translator_validation ascii_str_ops scenario_A).
  - repeat constructor; discriminate.
  - intros H. repeat (apply Exists_cons in H as [H|H]; [vm_compute in H; discriminate|]).
    by apply Exists_nil in H.
Defined.

(* ===================================================================== *)
(** * Literal vectors and end-to-end scenario                             *)
(* ===================================================================== *)

Section Concrete.

(** C3, as amended: assembling the single row READ_MEM,2,1,0 produces
    exactly the 4 bytes 5A 10 00 00, the little-endian encoding of the
    32-bit word 0x0000105A (opcode 26 in bits 0-4, B = 2 in bits 5-11,
    C = 1 in bits 12-18). *)
Theorem vector_3_bytes :
  assemble_rows vector_3 = Ok [x5a; x10; x00; x00] /\
  from_bytes_little [x5a; x10; x00; x00] = 0x0000105A.
Proof. split; vm_compute; reflexivity. Qed.

(** C3 as stated fails: the bytes are not 1A 10 00 00. *)
Lemma vector_3_not_1A :
  assemble_rows vector_3 <> Ok [x1a; x10; x00; x00].
Proof. vm_compute. discriminate. Qed.

(** A run that finished is the same with any larger step bound. *)
Lemma run_binary_bytes_more_fuel fuel fuel' code_bytes mem_size regs_count tr o :
  run_binary_bytes fuel code_bytes mem_size regs_count = (tr, o) ->
  o <> OutOfFuel -> (fuel <= fuel')%nat ->
  run_binary_bytes fuel' code_bytes mem_size regs_count = (tr, o).
Proof.
  unfold run_binary_bytes. intros Hrun Ho Hle.
  destruct (negb _); [done|]. cbv zeta in *.
  destruct (_ <? _); [done|].
  destruct (load_program _ _ _); [|done].
  by eapply exec_loop_more_fuel.
Qed.

(** The observation of scenario A on an outcome. *)
Lemma scenario_A_four_steps :
  match (run_binary_bytes 4 scenario_A_bytes default_mem_size
                          default_regs_count).2 with
  | Returned st =>
      mem st !! 100%nat = Some 123 /\ regs st !! 1%nat = Some 123
  | _ => False
  end.
Proof. vm_compute. split; reflexivity. Qed.

(** C1: the four-row program LOAD_CONST,0,123 / WRITE_MEM,0,100 /
    LOAD_CONST,2,100 / READ_MEM,2,1,0 assembles, and executing the bytes
    with the default memory size (65536 words) and register count (32)
    returns, for every step bound of at least four iterations, a final state
    with memory[100] = 123 and register[1] = 123. *)
Theorem scenario_A_end_to_end (fuel : nat) :
  (4 <= fuel)%nat ->
  exists bs tr st,
    assemble_rows scenario_A = Ok bs /\
    run_binary_bytes fuel bs default_mem_size default_regs_count
    = (tr, Returned st) /\
    mem st !! 100%nat = Some 123 /\ regs st !! 1%nat = Some 123.
Proof.
  intros Hfuel. exists scenario_A_bytes.
  pose proof scenario_A_four_steps as H4.
  destruct (run_binary_bytes 4 scenario_A_bytes default_mem_size
                             default_regs_count) as [tr o] eqn:Hrun.
  cbn [snd] in H4. destruct o as [st| |]; try contradiction.
  exists tr, st. split; [vm_compute; reflexivity|].
  split; [|exact H4].
  apply (run_binary_bytes_more_fuel 4 fuel);
    [exact Hrun | discriminate | exact Hfuel].
Qed.

Lemma scenario_A_end_to_end_witness :
  exists bs tr st,
    assemble_rows scenario_A = Ok bs /\
    run_binary_bytes 4 bs default_mem_size default_regs_count
    = (tr, Returned st) /\
    mem st !! 100%nat = Some 123 /\ regs st !! 1%nat = Some 123.
Proof.
  apply (scenario_A_end_to_end 4). lia.
Defined.

End Concrete.

(* ===================================================================== *)
(** * More on the bit-field codec                                         *)
(* ===================================================================== *)

Section CodecMore.

Implicit Types (pairs : list field) (f : field).

Lemma pack_fields_loop_char pairs : forall val,
  pack_fields_loop val pairs =
  if existsb negative_field pairs then Err ValueError_negative_shift
  else Ok (Z.lor val (lor_fields pairs)).
Proof.
  induction pairs as [|[[v start] width] pairs IH]; intros val;
    cbn [pack_fields_loop existsb lor_fields negative_field].
  - by rewrite Z.lor_0_r.
  - destruct (Z.ltb_spec width 0) as [Hw|Hw]; cbn [orb].
    { by rewrite mask_negative_width. }
    rewrite mask_nonneg_width by done. cbn [mbind result_bind].
    unfold lshift. destruct (start <? 0); cbn [orb mbind result_bind]; [done|].
    rewrite IH. by rewrite Z.lor_assoc.
Qed.

Lemma pack_fields_char pairs :
  pack_fields pairs =
  if existsb negative_field pairs then Err ValueError_negative_shift
  else Ok (Z.land (lor_fields pairs) (Z.ones 32)).
Proof.
  unfold pack_fields. rewrite pack_fields_loop_char.
  destruct (existsb _ _); [done|]. cbn. by rewrite Z.lor_0_l.
Qed.

(** [pack_fields] raises exactly when some field has a negative width
    or a negative start, and then it is the shift's ValueError; a
    word it returns fits in 32 bits, whatever the values were. *)
Theorem pack_fields_outcome pairs :
  (forall e, pack_fields pairs = Err e ->
             e = ValueError_negative_shift /\
             Exists (fun f => negative_field f = true) pairs) /\
  (Exists (fun f => negative_field f = true) pairs ->
   pack_fields pairs = Err ValueError_negative_shift) /\
  (forall word, pack_fields pairs = Ok word -> 0 <= word < 2 ^ 32).
Proof.
  rewrite pack_fields_char.
  destruct (existsb negative_field pairs) eqn:Hneg.
  - apply existsb_exists in Hneg as (f & Hin & Hf).
    assert (Exists (fun f => negative_field f = true) pairs) as Hex.
    { apply Exists_exists. exists f. split; [by apply list_elem_of_In|done]. }
    split; [by intros e [= <-]|]. split; [done|]. by intros word.
  - split; [by intros e|]. split.
    + intros Hex. apply Exists_exists in Hex as (f & Hin & Hf).
      assert (existsb negative_field pairs = true) as Hcontra; [|congruence].
      apply existsb_exists. exists f. split; [by apply list_elem_of_In|done].
    + intros word [= <-]. rewrite Z.land_ones by lia.
      apply Z.mod_pos_bound. lia.
Qed.

Lemma pack_fields_outcome_witness :
  pack_fields [(5, 0, 3); (1, -2, 4)] = Err ValueError_negative_shift.
Proof.
  apply (pack_fields_outcome [(5, 0, 3); (1, -2, 4)]).
  apply Exists_cons_tl, Exists_cons_hd. reflexivity.
Defined.

Lemma lor_fields_perm pairs pairs' :
  Permutation pairs pairs' -> lor_fields pairs = lor_fields pairs'.
Proof.
  induction 1 as [|[[v s] w] l l' _ IH|[[v1 s1] w1] [[v2 s2] w2] l|l1 l2 l3 _ IH1 _ IH2];
    cbn [lor_fields].
  - done.
  - by rewrite IH.
  - rewrite !Z.lor_assoc. f_equal. apply Z.lor_comm.
  - congruence.
Qed.

Lemma existsb_perm {A} (p : A -> bool) (l l' : list A) :
  Permutation l l' -> existsb p l = existsb p l'.
Proof.
  induction 1 as [|x l l' _ IH|x y l|l1 l2 l3 _ IH1 _ IH2]; cbn [existsb].
  - done.
  - by rewrite IH.
  - rewrite !orb_assoc. f_equal. apply orb_comm.
  - congruence.
Qed.

(** The order of the fields handed to [pack_fields] does not matter:
    any reordering of the list gives the same word, or the same
    exception. *)
Theorem pack_fields_order pairs pairs' :
  Permutation pairs pairs' -> pack_fields pairs = pack_fields pairs'.
Proof.
  intros Hperm. rewrite !pack_fields_char.
  by rewrite (existsb_perm _ _ _ Hperm), (lor_fields_perm _ _ Hperm).
Qed.

Lemma pack_fields_order_witness :
  pack_fields [(13, 0, 5); (3, 5, 7); (123, 12, 11)]
  = pack_fields [(123, 12, 11); (13, 0, 5); (3, 5, 7)].
Proof.
  apply pack_fields_order.
  apply Permutation_sym.
  exact (Permutation_cons_append [(13, 0, 5); (3, 5, 7)] (123, 12, 11)).
Defined.

Lemma testbit_lor_fields pairs (m : Z) :
  0 <= m -> Forall well_formed pairs ->
  Z.testbit (lor_fields pairs) m = existsb (sets_bit m) pairs.
Proof.
  intros Hm Hwf.
  induction Hwf as [|[[v s] w] pairs [Hs Hw] _ IH];
    cbn [lor_fields existsb sets_bit].
  - apply Z.bits_0.
  - rewrite Z.lor_spec, IH. f_equal.
    rewrite Z.shiftl_spec by done.
    destruct (Z.leb_spec s m) as [Hsm|Hsm]; cbn [andb].
    + rewrite Z.land_spec, testbit_ones by lia.
      replace (m - s <? w) with (m <? s + w)
        by (destruct (Z.ltb_spec m (s + w)), (Z.ltb_spec (m - s) w); lia).
      apply andb_comm.
    + apply Z.testbit_neg_r. lia.
Qed.

Lemma sets_bit_apart (n s w : Z) f :
  0 <= n < w -> apart s w f -> sets_bit (n + s) f = false.
Proof.
  destruct f as [[v' s'] w']. cbn [apart sets_bit]. intros Hn Hap.
  destruct (Z.leb_spec s' (n + s)), (Z.ltb_spec (n + s) (s' + w'));
    cbn [andb]; try done; lia.
Qed.

Lemma well_formed_not_negative pairs :
  Forall well_formed pairs -> existsb negative_field pairs = false.
Proof.
  intros Hwf. apply not_true_is_false. intros Hex.
  apply existsb_exists in Hex as ([[v' s'] w'] & Hin & Hneg).
  apply list_elem_of_In in Hin. rewrite Forall_forall in Hwf.
  destruct (Hwf _ Hin) as [Hs' Hw']. cbn in Hneg.
  destruct (Z.ltb_spec w' 0), (Z.ltb_spec s' 0); cbn in Hneg; (done || lia).
Qed.

(** The bits of one field inside the packed word. *)
Lemma fld_of_packed pairs1 pairs2 (value start width : Z) :
  0 <= start -> 0 <= width -> start + width <= 32 ->
  Forall well_formed (pairs1 ++ pairs2) ->
  Forall (apart start width) (pairs1 ++ pairs2) ->
  fld (Z.land (lor_fields (pairs1 ++ (value, start, width) :: pairs2))
              (Z.ones 32)) start width
  = Z.land value (Z.ones width).
Proof.
  intros Hs Hw Hsum Hwf Hap.
  set (pairs := pairs1 ++ (value, start, width) :: pairs2).
  assert (Forall well_formed pairs) as Hwf'.
  { apply Forall_app in Hwf as [H1 H2]. apply Forall_app. split; [done|].
    by constructor. }
  unfold fld.
  apply Z.bits_inj'; intros n Hn.
  rewrite !Z.land_spec, Z.shiftr_spec, Z.land_spec by done.
  rewrite !testbit_ones by lia.
  destruct (Z.ltb_spec n width) as [Hlt|Hge];
    [|by rewrite !andb_false_r].
  rewrite (proj2 (Z.ltb_lt (n + start) 32)) by lia. rewrite !andb_true_r.
  rewrite testbit_lor_fields by (done || lia).
  unfold pairs. rewrite existsb_app. cbn [existsb sets_bit].
  apply Forall_app in Hap as [Hap1 Hap2].
  assert (forall l, Forall (apart start width) l ->
                    existsb (sets_bit (n + start)) l = false) as Hnone.
  { intros l Hl. apply not_true_is_false. intros Hex.
    apply existsb_exists in Hex as (f & Hin & Hset).
    apply list_elem_of_In in Hin. rewrite Forall_forall in Hl.
    rewrite (sets_bit_apart n start width f) in Hset; [done|lia|by apply Hl]. }
  rewrite (Hnone pairs1 Hap1), (Hnone pairs2 Hap2).
  rewrite orb_false_l, orb_false_r.
  rewrite (proj2 (Z.leb_le start (n + start))) by lia.
  rewrite (proj2 (Z.ltb_lt (n + start) (start + width))) by lia.
  cbn [andb]. f_equal. lia.
Qed.

(** A field packed together with others is read back as it was masked,
    provided it lies below bit 32 and no other field of the list
    overlaps it. *)
Theorem pack_unpack_among_fields pairs1 pairs2 (value start width : Z) :
  0 <= start -> 0 <= width -> start + width <= 32 ->
  Forall well_formed (pairs1 ++ pairs2) ->
  Forall (apart start width) (pairs1 ++ pairs2) ->
  (word ← pack_fields (pairs1 ++ (value, start, width) :: pairs2);
   unpack_field word start width)
  = Ok (Z.land value (Z.ones width)).
Proof.
  intros Hs Hw Hsum Hwf Hap.
  rewrite pack_fields_char, well_formed_not_negative.
  2:{ apply Forall_app in Hwf as [H1 H2]. apply Forall_app. split; [done|].
      by constructor. }
  cbn [mbind result_bind]. unfold unpack_field, rshift.
  rewrite (proj2 (Z.ltb_ge start 0)) by lia. cbn [mbind result_bind].
  rewrite mask_nonneg_width by done. cbn [mbind result_bind].
  unfold mret, result_ret. f_equal.
  by apply fld_of_packed.
Qed.

Lemma pack_unpack_among_fields_witness :
  (word ← pack_fields ([(22, 0, 5); (11, 5, 7)] ++ (12, 12, 7) :: [(0, 19, 6); (10, 25, 7)]);
   unpack_field word 12 7)
  = Ok (Z.land 12 (Z.ones 7)).
Proof.
  apply (pack_unpack_among_fields [(22, 0, 5); (11, 5, 7)]
           [(0, 19, 6); (10, 25, 7)] 12 12 7); try lia.
  - repeat constructor; lia.
  - repeat constructor; cbn; lia.
Defined.

End CodecMore.

(* ===================================================================== *)
(** * More on the assembler                                               *)
(* ===================================================================== *)

Section AssemblerMore.

Implicit Types (i : ir) (irs : list ir) (bs : list byte).

Lemma byte_of_small (x : Z) :
  0 <= x < 256 ->
  exists b, Byte.of_N (Z.to_N x) = Some b /\ Z.of_N (Byte.to_N b) = x.
Proof.
  intros Hx. destruct (Byte.of_N (Z.to_N x)) as [b|] eqn:Hb.
  - exists b. split; [done|]. apply Byte.to_of_N in Hb. lia.
  - apply Byte.of_N_None_iff in Hb. lia.
Qed.

(** The little-endian bytes of a non-negative integer, read back. *)
Lemma bytes_little_spec (n : nat) : forall v,
  0 <= v ->
  length (bytes_little n v) = n /\
  from_bytes_little (bytes_little n v) = v mod 256 ^ Z.of_nat n.
Proof.
  induction n as [|n IH]; intros v Hv.
  - split; [done|]. cbn. by rewrite Z.mod_1_r.
  - cbn [bytes_little].
    destruct (byte_of_small (v mod 256)) as (b & -> & Hb).
    { apply Z.mod_pos_bound. lia. }
    destruct (IH (v / 256)) as [Hlen Hval]; [apply Z.div_pos; lia|].
    split; [cbn [length]; by rewrite Hlen|].
    change (from_bytes_little (b :: bytes_little n (v / 256)))
      with (Z.of_N (Byte.to_N b) + 256 * from_bytes_little (bytes_little n (v / 256))).
    rewrite Hb, Hval, Nat2Z.inj_succ, Z.pow_succ_r by lia.
    rewrite (Z.rem_mul_r v 256 (256 ^ Z.of_nat n)) by lia. reflexivity.
Qed.

(** A well-formed layout packs to a word whose four bytes read back as
    the word. *)
Lemma encode_word (pairs : list field) :
  Forall well_formed pairs ->
  let word := Z.land (lor_fields pairs) (Z.ones 32) in
  (val ← pack_fields pairs; to_bytes_little val Assembler.INSTR_SIZE)
  = Ok (bytes_little 4 word) /\
  length (bytes_little 4 word) = 4%nat /\
  from_bytes_little (bytes_little 4 word) = word.
Proof.
  intros Hwf word.
  assert (0 <= word < 2 ^ 32) as Hrange.
  { unfold word. rewrite Z.land_ones by lia. apply Z.mod_pos_bound. lia. }
  rewrite pack_fields_char, well_formed_not_negative by done.
  cbn [mbind result_bind]. fold word. unfold to_bytes_little.
  rewrite (proj2 (Z.ltb_ge word 0)) by lia.
  rewrite (proj2 (Z.leb_gt (256 ^ Z.of_nat Assembler.INSTR_SIZE) word))
    by (change (256 ^ Z.of_nat Assembler.INSTR_SIZE) with (2 ^ 32); lia).
  split; [done|].
  destruct (bytes_little_spec 4 word) as [Hlen Hval]; [lia|].
  split; [done|]. rewrite Hval. apply Z.mod_small.
  change (256 ^ Z.of_nat 4) with (2 ^ 32). lia.
Qed.

(** [encode_instr] by format: unknown command, first missing key, or
    the four bytes of the packed word. *)
Lemma encode_instr_char i :
  encode_instr i =
  match format (ir_cmd i) with
  | None => Err (ValueError_unknown_ir (ir_cmd i))
  | Some (A, layout) =>
      match missing_keys i layout with
      | key :: _ => Err (KeyError key)
      | [] => Ok (bytes_little 4 (word_of i A layout))
      end
  end.
Proof.
  unfold encode_instr, format, word_of, fields_of, missing_keys, ir_get.
  repeat (match goal with
          | |- context [String.eqb ?a ?b] => destruct (String.eqb a b)
          end; [|]); try done;
    cbn [omap list_omap];
    repeat (match goal with
            | |- context [ir_args i !! ?k] =>
                destruct (ir_args i !! k); [|by cbn]
            end);
    cbn [mbind result_bind option_bind];
    match goal with
    | |- context [pack_fields ?pairs] =>
        destruct (encode_word pairs) as (Henc & _ & _);
          [repeat constructor; lia|exact Henc]
    end.
Qed.

(** [encode_instr] fails only on a command that is not, letter for
    letter, one of the four mnemonics (ValueError) or on a record that
    lacks an operand key of its format (KeyError for the first key
    missing, in the order B, C, D, E); operand values never make it
    fail, and what it returns is always 4 bytes. *)
Theorem encode_instr_outcome i :
  match encode_instr i with
  | Ok bs =>
      length bs = 4%nat /\
      exists A layout, format (ir_cmd i) = Some (A, layout) /\
                       missing_keys i layout = []
  | Err e =>
      (format (ir_cmd i) = None /\ e = ValueError_unknown_ir (ir_cmd i)) \/
      (exists A layout key rest,
         format (ir_cmd i) = Some (A, layout) /\
         missing_keys i layout = key :: rest /\ e = KeyError key)
  end.
Proof.
  rewrite encode_instr_char.
  destruct (format (ir_cmd i)) as [[A layout]|]; [|by left].
  destruct (missing_keys i layout) as [|key rest] eqn:Hmiss.
  - split; [|by eauto].
    apply bytes_little_spec. unfold word_of.
    rewrite Z.land_ones by lia. apply Z.mod_pos_bound. lia.
  - right. by eauto 10.
Qed.

Lemma word_of_bytes i A layout :
  from_bytes_little (bytes_little 4 (word_of i A layout)) = word_of i A layout.
Proof.
  assert (0 <= word_of i A layout < 2 ^ 32) as Hrange.
  { unfold word_of. rewrite Z.land_ones by lia. apply Z.mod_pos_bound. lia. }
  destruct (bytes_little_spec 4 (word_of i A layout)) as [_ ->]; [lia|].
  apply Z.mod_small. change (256 ^ Z.of_nat 4) with (2 ^ 32). lia.
Qed.

(** Read one field of a packed word back. *)
Ltac field_back p1 p2 v s w :=
  transitivity (Z.land v (Z.ones w));
  [ apply (fld_of_packed p1 p2 v s w);
    [lia | lia | lia | repeat constructor; lia | repeat constructor; cbn; lia]
  | first [reflexivity | apply Z.land_ones; lia] ].

(** A record of a known format with all its operand keys encodes to
    bytes whose word carries the format's value of A in bits 0-4 and,
    in each operand field of the format, the operand reduced modulo 2 to
    the field width: operands too large or negative wrap around
    silently. *)
Theorem encode_decode_fields i A layout :
  format (ir_cmd i) = Some (A, layout) ->
  missing_keys i layout = [] ->
  exists bs,
    encode_instr i = Ok bs /\
    opcode (from_bytes_little bs) = A /\
    Forall (fun '(key, start, width) =>
              exists v, ir_args i !! key = Some v /\
                        fld (from_bytes_little bs) start width = v mod 2 ^ width)
           layout.
Proof.
  intros Hformat Hmiss. rewrite encode_instr_char, Hformat, Hmiss.
  eexists. split; [reflexivity|]. rewrite word_of_bytes.
  unfold format in Hformat. unfold word_of, fields_of, opcode.
  repeat (match type of Hformat with
          | context [String.eqb ?a ?b] => destruct (String.eqb a b)
          end); simplify_eq; unfold missing_keys in Hmiss;
    cbn [omap list_omap] in Hmiss |- *;
    repeat (match goal with
            | |- context [ir_args i !! ?k] =>
                let v := fresh "v" in
                destruct (ir_args i !! k) as [v|] eqn:?; [|by cbn in Hmiss]
            end); cbn [omap list_omap option_bind].
  - split; [field_back (@nil field) [(v, 5, 7); (v0, 12, 11)] 13 0 5|].
    repeat (match goal with |- Forall _ _ => constructor end);
      (eexists; split; [eassumption|]).
    + field_back [(13, 0, 5)] [(v0, 12, 11)] v 5 7.
    + field_back [(13, 0, 5); (v, 5, 7)] (@nil field) v0 12 11.
  - split; [field_back (@nil field) [(v, 5, 7); (v0, 12, 7); (v1, 19, 6)] 26 0 5|].
    repeat (match goal with |- Forall _ _ => constructor end);
      (eexists; split; [eassumption|]).
    + field_back [(26, 0, 5)] [(v0, 12, 7); (v1, 19, 6)] v 5 7.
    + field_back [(26, 0, 5); (v, 5, 7)] [(v1, 19, 6)] v0 12 7.
    + field_back [(26, 0, 5); (v, 5, 7); (v0, 12, 7)] (@nil field) v1 19 6.
  - split; [field_back (@nil field) [(v, 5, 7); (v0, 12, 14)] 15 0 5|].
    repeat (match goal with |- Forall _ _ => constructor end);
      (eexists; split; [eassumption|]).
    + field_back [(15, 0, 5)] [(v0, 12, 14)] v 5 7.
    + field_back [(15, 0, 5); (v, 5, 7)] (@nil field) v0 12 14.
  - split; [field_back (@nil field)
              [(v, 5, 7); (v0, 12, 7); (v1, 19, 6); (v2, 25, 7)] 22 0 5|].
    repeat (match goal with |- Forall _ _ => constructor end);
      (eexists; split; [eassumption|]).
    + field_back [(22, 0, 5)] [(v0, 12, 7); (v1, 19, 6); (v2, 25, 7)] v 5 7.
    + field_back [(22, 0, 5); (v, 5, 7)] [(v1, 19, 6); (v2, 25, 7)] v0 12 7.
    + field_back [(22, 0, 5); (v, 5, 7); (v0, 12, 7)] [(v2, 25, 7)] v1 19 6.
    + field_back [(22, 0, 5); (v, 5, 7); (v0, 12, 7); (v1, 19, 6)]
        (@nil field) v2 25 7.
Qed.

Lemma encode_decode_fields_witness :
  exists bs,
    encode_instr ir_read_mem = Ok bs /\
    opcode (from_bytes_little bs) = 26 /\
    Forall (fun '(key, start, width) =>
              exists v, ir_args ir_read_mem !! key = Some v /\
                        fld (from_bytes_little bs) start width = v mod 2 ^ width)
           [("B", 5, 7); ("C", 12, 7); ("D", 19, 6)]%string.
Proof.
  apply (encode_decode_fields ir_read_mem 26
           [("B", 5, 7); ("C", 12, 7); ("D", 19, 6)]%string).
  - reflexivity.
  - vm_compute. reflexivity.
Defined.

Lemma slice_after_chunk (c rest : list byte) (x : Z) :
  length c = 4%nat -> 0 <= x ->
  slice (c ++ rest) (4 + x) (4 + x + 4) = slice rest x (x + 4).
Proof.
  intros Hc Hx. unfold slice.
  replace (Z.to_nat (4 + x + 4 - (4 + x))) with (Z.to_nat (x + 4 - x)) by lia.
  f_equal. replace (Z.to_nat (4 + x)) with (4 + Z.to_nat x)%nat by lia.
  rewrite <- (drop_drop (c ++ rest) (Z.to_nat x) 4).
  by rewrite drop_app_length'.
Qed.

Lemma program_words_chunk (c rest : list byte) :
  length c = 4%nat ->
  program_words (c ++ rest) = from_bytes_little c :: program_words rest.
Proof.
  intros Hc. unfold program_words, range, Interpreter.INSTR_SIZE.
  assert (len (c ++ rest) = 4 + len rest) as ->.
  { unfold len. rewrite length_app, Hc. lia. }
  pose proof (len_nonneg rest) as Hrest.
  replace (4 + len rest - 0 + 4 - 1) with (len rest - 0 + 4 - 1 + 1 * 4) by lia.
  rewrite Z.div_add by lia.
  rewrite Z2Nat.inj_add by (try apply Z.div_pos; lia).
  rewrite Nat.add_comm. change (Z.to_nat 1) with 1%nat. cbn [Nat.add seq map].
  f_equal.
  - change (from_bytes_little (take 4 (c ++ rest)) = from_bytes_little c).
    by rewrite take_app_length'.
  - rewrite <- seq_shift, !map_map. apply map_ext_in. intros k _.
    f_equal.
    replace (0 + Z.of_nat (S k) * 4) with (4 + (0 + Z.of_nat k * 4)) by lia.
    apply slice_after_chunk; [done|lia].
Qed.

Lemma program_words_chunks (chunks : list (list byte)) :
  Forall (fun c => length c = 4%nat) chunks ->
  program_words (concat chunks) = map from_bytes_little chunks.
Proof.
  induction 1 as [|c chunks Hc _ IH]; [done|].
  cbn [concat map]. by rewrite program_words_chunk, IH.
Qed.

Lemma length_concat_chunks (chunks : list (list byte)) :
  Forall (fun c => length c = 4%nat) chunks ->
  length (concat chunks) = (4 * length chunks)%nat.
Proof.
  induction 1 as [|c chunks Hc _ IH]; [done|].
  cbn [concat length]. rewrite length_app, Hc, IH. lia.
Qed.

Lemma assemble_loop_spec (irs : list ir) : forall binary,
  match assemble_loop binary irs with
  | Ok bs =>
      exists chunks,
        Forall2 (fun i c => encode_instr i = Ok c) irs chunks /\
        bs = binary ++ concat chunks
  | Err e =>
      exists pre i post,
        irs = pre ++ i :: post /\
        Forall (fun j => exists c, encode_instr j = Ok c) pre /\
        encode_instr i = Err e
  end.
Proof.
  induction irs as [|i irs IH]; intros binary; cbn [assemble_loop].
  - exists []. split; [constructor|]. by rewrite app_nil_r.
  - destruct (encode_instr i) as [c|e] eqn:Hi; cbn [mbind result_bind].
    + specialize (IH (binary ++ c)).
      destruct (assemble_loop (binary ++ c) irs) as [bs|e].
      * destruct IH as (chunks & Hall & ->). exists (c :: chunks).
        split; [by constructor|]. cbn [concat]. by rewrite app_assoc.
      * destruct IH as (pre & j & post & -> & Hpre & Hj).
        exists (i :: pre), j, post. split; [done|]. split; [|done].
        constructor; eauto.
    + exists [], i, irs. split; [done|]. split; [constructor|done].
Qed.

Lemma assemble_loop_first_error (pre : list ir) i post e : forall binary,
  Forall (fun j => exists c, encode_instr j = Ok c) pre ->
  encode_instr i = Err e ->
  assemble_loop binary (pre ++ i :: post) = Err e.
Proof.
  induction pre as [|j pre IH]; intros binary Hpre Hi; cbn [app assemble_loop].
  - by rewrite Hi.
  - apply Forall_cons in Hpre as [[c Hc] Hpre]. rewrite Hc.
    cbn [mbind result_bind]. by apply IH.
Qed.

Lemma encode_instr_length (i : ir) (c : list byte) :
  encode_instr i = Ok c -> length c = 4%nat.
Proof.
  rewrite encode_instr_char.
  destruct (format (ir_cmd i)) as [[A layout]|]; [|done].
  destruct (missing_keys i layout); [|done]. intros Hc.
  assert (c = bytes_little 4 (word_of i A layout)) as -> by congruence.
  apply bytes_little_spec. unfold word_of.
  rewrite Z.land_ones by lia. apply Z.mod_pos_bound. lia.
Qed.

(** A binary that [assemble] returns has 4 bytes per record, and
    splitting it into words the way the interpreter loads it gives, in
    order, the word of each record's encoding. *)
Theorem assemble_program_words (irs : list ir) (bs : list byte) :
  assemble irs = Ok bs ->
  length bs = (4 * length irs)%nat /\
  Forall2 (fun i w => exists c, encode_instr i = Ok c /\
                                from_bytes_little c = w)
          irs (program_words bs).
Proof.
  unfold assemble. intros Hasm.
  pose proof (assemble_loop_spec irs []) as H. rewrite Hasm in H.
  destruct H as (chunks & Hall & ->). cbn [app].
  assert (Forall (fun c => length c = 4%nat) chunks) as Hlen.
  { clear Hasm. induction Hall as [|i c irs chunks Hi _ IH]; constructor; [|done].
    by eapply encode_instr_length. }
  split.
  - rewrite length_concat_chunks by done. by rewrite (Forall2_length _ _ _ Hall).
  - rewrite program_words_chunks by done.
    clear Hlen Hasm. induction Hall; constructor; eauto.
Qed.

Lemma assemble_program_words_witness :
  exists bs,
    assemble [ir_read_mem] = Ok bs /\
    length bs = (4 * 1)%nat /\
    Forall2 (fun i w => exists c, encode_instr i = Ok c /\
                                  from_bytes_little c = w)
            [ir_read_mem] (program_words bs).
Proof.
  eexists. split; [vm_compute; reflexivity|].
  apply (assemble_program_words [ir_read_mem]). vm_compute. reflexivity.
Defined.

(** [assemble] fails exactly when some record fails to encode, and the
    exception is the one of the first such record; the records before
    it do not matter and the ones after it are never looked at. *)
Theorem assemble_first_error (irs : list ir) (e : exn) :
  assemble irs = Err e <->
  exists pre i post,
    irs = pre ++ i :: post /\
    Forall (fun j => exists c, encode_instr j = Ok c) pre /\
    encode_instr i = Err e.
Proof.
  unfold assemble. split.
  - intros Hasm. pose proof (assemble_loop_spec irs []) as H.
    by rewrite Hasm in H.
  - intros (pre & i & post & -> & Hpre & Hi).
    by apply assemble_loop_first_error.
Qed.

Lemma assemble_first_error_witness :
  assemble [ir_read_mem; mk_ir "read_mem" ∅; mk_ir "POW" ∅]
  = Err (ValueError_unknown_ir "read_mem").
Proof.
  apply (assemble_first_error _ _).
  exists [ir_read_mem], (mk_ir "read_mem" ∅), [mk_ir "POW" ∅].
  split; [reflexivity|]. split; [|reflexivity].
  repeat constructor. eexists. vm_compute. reflexivity.
Defined.

End AssemblerMore.

(* ===================================================================== *)
(** * From rows to bytes                                                  *)
(* ===================================================================== *)

Section Pipeline.
Context {ops : StrOps}.

(** A record the translator builds has a known format and all its
    keys. *)
Lemma to_ir_row_format idx row i :
  to_ir_row idx row = Ok i ->
  exists A layout,
    format (ir_cmd i) = Some (A, layout) /\ missing_keys i layout = [].
Proof.
  unfold to_ir_row. intros H.
  destruct (getitem row 0) as [r0|]; [|done]. cbn [mbind result_bind] in H.
  repeat (match type of H with
          | context [String.eqb ?a ?b] => destruct (String.eqb a b)
          end); try done;
  repeat (match type of H with
          | (?m ≫= _) = Ok _ =>
              destruct m; cbn [mbind result_bind] in H; [|done]
          end);
  injection H as <-; eexists _, _; (split; [reflexivity|]);
  vm_compute; reflexivity.
Qed.

Lemma to_ir_loop_encodes rows : forall acc idx irs,
  to_ir_loop acc idx rows = Ok irs ->
  Forall (fun i => exists c, encode_instr i = Ok c) acc ->
  Forall (fun i => exists c, encode_instr i = Ok c) irs /\
  length irs = (length acc + length rows)%nat.
Proof.
  induction rows as [|row rows IH]; intros acc idx irs H Hacc;
    cbn [to_ir_loop] in H.
  - injection H as <-. split; [done|]. cbn. lia.
  - destruct (to_ir_row idx row) as [i|] eqn:Hrow; [|done].
    cbn [mbind result_bind] in H.
    apply IH in H as [Hall Hlen].
    + split; [done|]. rewrite Hlen, length_app. cbn. lia.
    + apply Forall_app. split; [done|]. constructor; [|constructor].
      apply to_ir_row_format in Hrow as (A & layout & Hf & Hm).
      rewrite encode_instr_char, Hf, Hm. eauto.
Qed.

(** Whatever [to_ir] returns, [assemble] encodes: translation followed
    by assembly never raises the encoder's ValueError or a KeyError, and
    the binary has 4 bytes per row. *)
Theorem translate_then_assemble rows irs :
  to_ir rows = Ok irs ->
  exists bs, assemble irs = Ok bs /\ length bs = (4 * length rows)%nat.
Proof.
  unfold to_ir. intros H.
  apply to_ir_loop_encodes in H as [Hall Hlen]; [|constructor].
  cbn in Hlen.
  pose proof (assemble_loop_spec irs []) as Hasm. unfold assemble.
  destruct (assemble_loop [] irs) as [bs|e].
  - destruct Hasm as (chunks & Hchunks & ->). exists (concat chunks).
    split; [done|]. cbn [app].
    rewrite length_concat_chunks.
    + by rewrite <- (Forall2_length _ _ _ Hchunks), Hlen.
    + clear -Hchunks. induction Hchunks; constructor; [|done].
      by eapply encode_instr_length.
  - destruct Hasm as (pre & i & post & -> & _ & Hi).
    apply Forall_app in Hall as [_ Hall].
    apply Forall_cons in Hall as [[c Hc] _]. congruence.
Qed.

Lemma program_rows_cons_kept r0 row :
  (len (map str_strip (r0 :: row)) =? 0) = false.
Proof.
  cbn [map]. rewrite len_cons. apply Z.eqb_neq.
  pose proof (len_nonneg (map str_strip row)). lia.
Qed.

(** The row parser of the GUI worker keeps exactly the rows
    [parse_csv_program] keeps, stripped the same way: the extra
    [len(row) == 0] test of [parse_csv_program] never fires. *)
Theorem gui_rows_agree (reader : list (list string)) :
  parse_csv_rows reader = program_rows reader.
Proof.
  induction reader as [|row reader IH]; [done|].
  cbn [parse_csv_rows program_rows]. destruct row as [|r0 row]; [done|].
  destruct (_ || _); [done|].
  rewrite program_rows_cons_kept. by rewrite IH.
Qed.

Lemma parse_csv_rows_nonempty (reader : list (list string)) :
  Forall (fun row => row <> []) (parse_csv_rows reader).
Proof.
  induction reader as [|row reader IH]; cbn [parse_csv_rows]; [constructor|].
  destruct row as [|r0 row]; [done|].
  destruct (_ || _); [done|]. by constructor.
Qed.

(** The rows [parse_csv_program] keeps are the rows the web service
    keeps whose first field is not blank, with every field stripped: the
    web service also hands [to_ir] rows with a blank first field, and
    hands it all fields unstripped. *)
Theorem web_rows_superset (reader : list (list string)) :
  program_rows reader =
  map (map str_strip)
      (List.filter (fun row =>
                      match row with
                      | [] => false
                      | r0 :: _ => negb (String.eqb (str_strip r0) "")
                      end) (web_rows reader)).
Proof.
  unfold web_rows.
  induction reader as [|row reader IH]; [done|].
  cbn [program_rows List.filter]. destruct row as [|r0 row]; [done|].
  destruct (String.prefix "#" (str_strip r0)) eqn:Hc; cbn [negb].
  { by rewrite orb_true_r. }
  rewrite orb_false_r. cbn [List.filter].
  destruct (String.eqb (str_strip r0) ""); cbn [negb]; [done|].
  rewrite program_rows_cons_kept. cbn [map]. by rewrite IH.
Qed.

Lemma web_rows_nonempty (reader : list (list string)) :
  Forall (fun row => row <> []) (web_rows reader).
Proof.
  unfold web_rows. apply Forall_forall. intros row Hin.
  apply list_elem_of_In, filter_In in Hin as [_ Hkeep]. by destruct row.
Qed.

Lemma to_ir_nonempty_rows rows e :
  Forall (fun row => row <> []) rows ->
  to_ir rows = Err e -> is_validation e.
Proof.
  unfold to_ir. intros Hne He.
  pose proof (to_ir_loop_spec rows [] 0) as H. rewrite He in H.
  destruct H as [_ Hval]. by apply Hval.
Qed.

(** On the rows of any of the three row sources (the CLI parser, the
    GUI parser, the web service's filter) [to_ir] raises nothing but its
    validation errors: no row source hands it an empty row, so the
    subscript [row[0]] never fails. *)
Theorem row_sources_validation_only (reader : list (list string)) (e : exn) :
  (to_ir (program_rows reader) = Err e -> is_validation e) /\
  (to_ir (parse_csv_rows reader) = Err e -> is_validation e) /\
  (to_ir (web_rows reader) = Err e -> is_validation e).
Proof.
  split; [|split].
  - apply to_ir_nonempty_rows, program_rows_nonempty.
  - apply to_ir_nonempty_rows, parse_csv_rows_nonempty.
  - apply to_ir_nonempty_rows, web_rows_nonempty.
Qed.

(** Without a row source in front, an empty row makes [to_ir] fail
    with the bare IndexError of [row[0]], not with a ValueError. *)
Lemma to_ir_empty_row_index_error :
  to_ir [[]] = Err IndexError_list.
Proof. reflexivity. Qed.
End Pipeline.

Lemma translate_then_assemble_witness :
  exists irs bs,
    @to_ir ascii_str_ops scenario_A = Ok irs /\
    assemble irs = Ok bs /\ length bs = (4 * length scenario_A)%nat.
Proof.
  destruct (@to_ir ascii_str_ops scenario_A) as [irs|] eqn:Hir;
    [|vm_compute in Hir; discriminate].
  destruct (@translate_then_assemble ascii_str_ops scenario_A irs Hir)
    as (bs & Hbs & Hlen).
  by exists irs, bs.
Defined.

Lemma row_sources_validation_only_witness :
  is_validation (ValueError_unknown_command "BOGUS" 1).
Proof.
  apply (@row_sources_validation_only ascii_str_ops
           [["# comment"]; ["bogus"; "1"]]%string).
  vm_compute. reflexivity.
Defined.

(* ===================================================================== *)
(** * The other three instructions and the unknown opcode                 *)
(* ===================================================================== *)

Section InterpMore.
Implicit Types (w : Z) (st : state).

Lemma fld_range w start width :
  0 <= width -> 0 <= fld w start width < 2 ^ width.
Proof.
  intros Hw. unfold fld. rewrite Z.land_ones by done.
  apply Z.mod_pos_bound. by apply Z.pow_pos_nonneg.
Qed.

(** LOAD_CONST (opcode 13): if register B exists, reg[B] becomes the
    11-bit constant C, a value from 0 to 2047, and nothing else changes;
    otherwise the instruction raises the register IndexError naming B. *)
Theorem load_const_semantics w st :
  opcode w = 13 ->
  (fld w 5 7 < len (regs st) ->
   decode_and_execute_one w st
   = (set_regs (<[Z.to_nat (fld w 5 7) := fld w 12 11]> (regs st)) st, Ok tt)) /\
  (len (regs st) <= fld w 5 7 ->
   decode_and_execute_one w st
   = (st, Err (IndexError_register "LOAD_CONST" "B" (fld w 5 7)))) /\
  0 <= fld w 12 11 < 2048.
Proof.
  intros Hop. rewrite decode_and_execute_one_spec. unfold exec_spec.
  rewrite Hop. cbn [Z.eqb Pos.eqb].
  split; [|split].
  - intros H. by rewrite (proj2 (Z.leb_gt _ _)).
  - intros H. by rewrite (proj2 (Z.leb_le _ _)).
  - apply (fld_range w 12 11). lia.
Qed.

(** READ_MEM (opcode 26) with registers B and C in range: if the
    address reg[B] + D is inside memory, reg[C] becomes the cell at that
    address and nothing else changes; otherwise (also for a negative
    address) the instruction raises the address IndexError. *)
Theorem read_mem_semantics w st :
  opcode w = 26 ->
  fld w 5 7 < len (regs st) -> fld w 12 7 < len (regs st) ->
  let addr := rd (regs st) (fld w 5 7) + fld w 19 6 in
  (0 <= addr < len (mem st) ->
   decode_and_execute_one w st
   = (set_regs (<[Z.to_nat (fld w 12 7) := rd (mem st) addr]> (regs st)) st,
      Ok tt)) /\
  (~ 0 <= addr < len (mem st) ->
   decode_and_execute_one w st
   = (st, Err (IndexError_address "READ_MEM" addr (len (mem st))))).
Proof.
  intros Hop HB HC addr. rewrite decode_and_execute_one_spec. unfold exec_spec.
  rewrite Hop. cbn [Z.eqb Pos.eqb].
  rewrite !(proj2 (Z.leb_gt _ _)) by done. fold addr.
  split; intros Ha.
  - by rewrite (proj2 (in_range_true _ _)).
  - destruct (in_range addr (len (mem st))) eqn:Hr; [|done].
    by apply in_range_true in Hr.
Qed.

(** WRITE_MEM (opcode 15) with register B in range: if the 14-bit
    address C is inside memory, the cell at C becomes reg[B] and nothing
    else changes; otherwise the instruction raises the address
    IndexError.  C is at most 16383. *)
Theorem write_mem_semantics w st :
  opcode w = 15 ->
  fld w 5 7 < len (regs st) ->
  (fld w 12 14 < len (mem st) ->
   decode_and_execute_one w st
   = (set_mem (<[Z.to_nat (fld w 12 14) := rd (regs st) (fld w 5 7)]> (mem st)) st,
      Ok tt)) /\
  (len (mem st) <= fld w 12 14 ->
   decode_and_execute_one w st
   = (st, Err (IndexError_address "WRITE_MEM" (fld w 12 14) (len (mem st))))) /\
  0 <= fld w 12 14 < 16384.
Proof.
  intros Hop HB. rewrite decode_and_execute_one_spec. unfold exec_spec.
  rewrite Hop. cbn [Z.eqb Pos.eqb].
  rewrite !(proj2 (Z.leb_gt _ _)) by done.
  pose proof (fld_range w 12 14 ltac:(lia)) as HC.
  split; [|split; [|done]]; intros Ha.
  - rewrite (proj2 (in_range_true _ _)) by lia. done.
  - destruct (in_range _ _) eqn:Hr; [|done].
    apply in_range_true in Hr. lia.
Qed.

(** A word is rejected as an unknown opcode, the state untouched and
    the exception carrying the 5-bit opcode field, exactly when that
    field is none of 13, 26, 15, 22; all other bits of the word are
    ignored. *)
Theorem unknown_opcode w st :
  (opcode w <> 13 /\ opcode w <> 26 /\ opcode w <> 15 /\ opcode w <> 22) <->
  decode_and_execute_one w st = (st, Err (ValueError_unknown_opcode (opcode w))).
Proof.
  rewrite decode_and_execute_one_spec. unfold exec_spec. split.
  - intros (H1 & H2 & H3 & H4).
    by rewrite !(proj2 (Z.eqb_neq _ _)) by done.
  - intros H.
    repeat (match type of H with
            | context [?a =? ?b] => destruct (Z.eqb_spec a b)
            end); [..|done];
      exfalso; repeat case_match; simplify_eq;
      match goal with
      | Hp : int_pow _ _ = Err _ |- _ =>
          by apply int_pow_errors in Hp as [?|?]
      end.
Qed.

Lemma load_const_semantics_witness :
  decode_and_execute_one 0x7B00D (mk_state [0; 0] [0] 1 1)
  = (mk_state [123; 0] [0] 1 1, Ok tt).
Proof.
  apply (load_const_semantics 0x7B00D (mk_state [0; 0] [0] 1 1)).
  - reflexivity.
  - vm_compute. reflexivity.
Defined.

Lemma read_mem_semantics_witness :
  decode_and_execute_one 26 st_read_oob
  = (st_read_oob, Err (IndexError_address "READ_MEM" 5 2)).
Proof.
  apply (read_mem_semantics 26 st_read_oob);
    [reflexivity | vm_compute; reflexivity | vm_compute; reflexivity |].
  vm_compute. intros [_ H]. discriminate H.
Defined.

Lemma write_mem_semantics_witness :
  decode_and_execute_one 0x6400F (mk_state [123] (replicate 101 0) 2 4)
  = (mk_state [123] (replicate 100 0 ++ [123]) 2 4, Ok tt).
Proof.
  apply (write_mem_semantics 0x6400F (mk_state [123] (replicate 101 0) 2 4));
    [reflexivity | vm_compute; reflexivity | vm_compute; reflexivity].
Defined.

Lemma unknown_opcode_witness :
  decode_and_execute_one 0 st_read_oob
  = (st_read_oob, Err (ValueError_unknown_opcode 0)).
Proof.
  apply (unknown_opcode 0 st_read_oob). vm_compute. intuition discriminate.
Defined.

End InterpMore.

(* ===================================================================== *)
(** * More on loading and running                                         *)
(* ===================================================================== *)

Section RunMore.
Implicit Types (w : Z) (st : state) (fuel : nat) (tr : list event)
  (code_bytes : list byte) (mem_size regs_count : Z).

Lemma len_app {A} (l k : list A) : len (l ++ k) = len l + len k.
Proof. unfold len. rewrite length_app. lia. Qed.

Lemma list_repeat_succ (n : Z) :
  0 < n -> list_repeat 0 n = 0 :: list_repeat 0 (n - 1).
Proof.
  intros Hn. unfold list_repeat.
  replace (Z.to_nat n) with (S (Z.to_nat (n - 1))) by lia. done.
Qed.

(** Loading writes the words after what is already in place and leaves
    the zeros behind them. *)
Lemma load_program_zeros (ws : list Z) : forall (pre : list Z) (k : Z),
  len ws <= k ->
  load_program (len pre) ws (pre ++ list_repeat 0 k)
  = Ok (pre ++ ws ++ list_repeat 0 (k - len ws)).
Proof.
  induction ws as [|w ws IH]; intros pre k Hk.
  - cbn [load_program app]. unfold len. cbn [length Z.of_nat].
    by rewrite Z.sub_0_r.
  - rewrite len_cons in Hk. pose proof (len_nonneg ws).
    cbn [load_program]. rewrite list_repeat_succ by lia.
    rewrite setitem_in_range.
    2:{ pose proof (len_nonneg pre). unfold len in *.
        rewrite length_app. cbn [length]. lia. }
    cbn [mbind result_bind].
    replace (Z.to_nat (len pre)) with (length pre + 0)%nat
      by (unfold len; lia).
    rewrite insert_app_r. cbn [list_insert insert].
    pose proof (IH (pre ++ [w]) (k - 1) ltac:(lia)) as IH'.
    assert (len (pre ++ [w]) = len pre + 1) as Hl
      by (unfold len; rewrite length_app; cbn; lia).
    rewrite Hl, <- !app_assoc in IH'. cbn [app] in IH'. rewrite IH'.
    rewrite len_cons. cbn [app].
    replace (k - 1 - len ws) with (k - (1 + len ws)) by lia. reflexivity.
Qed.

Lemma run_misaligned fuel code_bytes mem_size regs_count :
  len code_bytes mod 4 <> 0 ->
  run_binary_bytes fuel code_bytes mem_size regs_count
  = ([], Raised ValueError_alignment).
Proof.
  intros Hal. unfold run_binary_bytes, Interpreter.INSTR_SIZE.
  by rewrite (proj2 (Z.eqb_neq _ _)).
Qed.

Lemma run_oversized fuel code_bytes mem_size regs_count :
  len code_bytes mod 4 = 0 ->
  mem_size < len code_bytes / 4 ->
  run_binary_bytes fuel code_bytes mem_size regs_count
  = ([], Raised (MemoryError_too_large (len code_bytes / 4) mem_size)).
Proof.
  intros Hal Hbig. unfold run_binary_bytes, Interpreter.INSTR_SIZE.
  rewrite Hal. cbn [Z.eqb negb program_len mem].
  rewrite len_program_words by done.
  by rewrite (proj2 (Z.ltb_lt _ _)).
Qed.

Lemma run_aligned_fits fuel code_bytes mem_size regs_count :
  len code_bytes mod 4 = 0 ->
  len code_bytes / 4 <= mem_size ->
  run_binary_bytes fuel code_bytes mem_size regs_count
  = exec_loop fuel
      (mk_state (list_repeat 0 regs_count)
                (program_words code_bytes
                 ++ list_repeat 0 (mem_size - len code_bytes / 4))
                0 (len code_bytes / 4)).
Proof.
  intros Hal Hfit. unfold run_binary_bytes, Interpreter.INSTR_SIZE.
  rewrite Hal. cbn [Z.eqb negb program_len mem].
  rewrite len_program_words by done.
  rewrite (proj2 (Z.ltb_ge _ _)) by done.
  pose proof (load_program_zeros (program_words code_bytes) [] mem_size) as H.
  rewrite len_program_words in H by done. cbn [app] in H.
  change (len []) with 0 in H. rewrite H by done. reflexivity.
Qed.

(** A word-aligned binary that fits in memory is loaded, before the
    first instruction executes, as its words at addresses 0, 1, ... in
    order, followed by zeros up to [mem_size]; registers are all zero,
    the program counter is 0 and the program length is the word
    count. *)
Theorem run_loads_program fuel code_bytes mem_size regs_count :
  len code_bytes mod 4 = 0 ->
  len code_bytes / 4 <= mem_size ->
  exists st0,
    run_binary_bytes fuel code_bytes mem_size regs_count = exec_loop fuel st0 /\
    regs st0 = list_repeat 0 regs_count /\
    mem st0 = program_words code_bytes
              ++ list_repeat 0 (mem_size - len code_bytes / 4) /\
    len (mem st0) = mem_size /\
    pc st0 = 0 /\ program_len st0 = len code_bytes / 4.
Proof.
  intros Hal Hfit. eexists. split; [by apply run_aligned_fits|].
  cbn [regs mem pc program_len]. repeat split.
  rewrite len_app, len_program_words, len_list_repeat by done.
  pose proof (Z.div_pos (len code_bytes) 4 (len_nonneg _) ltac:(lia)). lia.
Qed.

Lemma run_loads_program_witness :
  exists st0,
    run_binary_bytes 0 scenario_A_bytes 6 2 = exec_loop 0 st0 /\
    mem st0 = [503821; 409615; 409677; 4186; 0; 0].
Proof.
  destruct (run_loads_program 0 scenario_A_bytes 6 2)
    as (st0 & Hrun & _ & Hmem & _); [reflexivity | vm_compute; discriminate |].
  exists st0. split; [exact Hrun|]. rewrite Hmem. vm_compute. reflexivity.
Defined.

Lemma exec_loop_sizes fuel : forall st tr st',
  exec_loop fuel st = (tr, Returned st') ->
  len (regs st') = len (regs st) /\ len (mem st') = len (mem st).
Proof.
  induction fuel as [|fuel IH]; intros st tr st' Hrun.
  - cbn [exec_loop] in Hrun. case_match; by simplify_eq.
  - destruct (Z.ltb_spec (pc st) (program_len st)) as [Hlt|Hge].
    2:{ rewrite exec_loop_halted in Hrun by done. by simplify_eq. }
    rewrite exec_loop_running in Hrun by done.
    destruct (getitem (mem st) (pc st)) as [instr|e]; [|done].
    cbv zeta in Hrun.
    destruct (decode_and_execute_one instr (set_pc (pc st + 1) st))
      as [st2 [[]|e]] eqn:Hdec; [|done].
    destruct (exec_loop fuel st2) as [tr' o'] eqn:Hrest. simplify_eq.
    apply IH in Hrest as [-> ->].
    by apply decode_frame in Hdec as (_ & _ & -> & ->).
Qed.

(** The state a run returns has the sizes asked for: [mem_size] memory
    cells (a run with a negative [mem_size] never returns) and
    [regs_count] registers, none for a negative count. *)
Theorem run_state_sizes fuel code_bytes mem_size regs_count tr st :
  run_binary_bytes fuel code_bytes mem_size regs_count = (tr, Returned st) ->
  0 <= mem_size /\ len (mem st) = mem_size /\
  len (regs st) = Z.max 0 regs_count.
Proof.
  intros Hrun.
  destruct (Z.eq_dec (len code_bytes mod 4) 0) as [Hal|Hal].
  2:{ by rewrite run_misaligned in Hrun. }
  destruct (Z.le_gt_cases (len code_bytes / 4) mem_size) as [Hfit|Hbig].
  2:{ by rewrite run_oversized in Hrun by (done || lia). }
  rewrite run_aligned_fits in Hrun by done.
  apply exec_loop_sizes in Hrun as [Hr Hm]. cbn [regs mem] in Hr, Hm.
  pose proof (Z.div_pos (len code_bytes) 4 (len_nonneg _) ltac:(lia)).
  split; [lia|]. split.
  - rewrite Hm, len_app, len_program_words, len_list_repeat by done. lia.
  - by rewrite Hr, len_list_repeat.
Qed.

Lemma exec_loop_raised fuel : forall st tr e,
  nonneg_state st -> 0 <= pc st -> program_len st <= len (mem st) ->
  exec_loop fuel st = (tr, Raised e) ->
  is_out_of_bounds e \/ exists A, e = ValueError_unknown_opcode A.
Proof.
  induction fuel as [|fuel IH]; intros st tr e Hnn Hpc Hlen Hrun.
  - cbn [exec_loop] in Hrun. by case_match.
  - destruct (Z.ltb_spec (pc st) (program_len st)) as [Hlt|Hge].
    2:{ by rewrite exec_loop_halted in Hrun. }
    rewrite exec_loop_running in Hrun by done.
    rewrite getitem_in_range in Hrun by lia. cbv zeta in Hrun.
    rewrite decode_and_execute_one_spec in Hrun.
    destruct (exec_spec _ _) as [st2 r] eqn:Hdec.
    pose proof Hdec as Hframe.
    rewrite <- decode_and_execute_one_spec in Hframe.
    apply decode_frame in Hframe as (Hpc2 & Hlen2 & _ & Hmem2).
    apply exec_spec_nonneg in Hdec as [Hnn2 Herr]; [|by destruct Hnn].
    cbn in Hpc2, Hlen2, Hmem2.
    destruct r as [[]|e'].
    + destruct (exec_loop fuel st2) as [tr' o'] eqn:Hrest. simplify_eq.
      eapply (IH st2); [done| | |done]; lia.
    + simplify_eq. by apply Herr.
Qed.

Lemma initial_nonneg code_bytes (k n rc : Z) :
  nonneg_state
    (mk_state (list_repeat 0 rc) (program_words code_bytes ++ list_repeat 0 k)
              0 n).
Proof.
  split; cbn; [apply list_repeat_zero_nonneg|].
  apply Forall_app. split;
    [apply program_words_nonneg|apply list_repeat_zero_nonneg].
Qed.

(** The only exceptions that escape [run_binary_bytes] are the
    alignment error, the program-too-large MemoryError, the explicit
    out-of-bounds IndexErrors and the unknown-opcode ValueError: the
    fetch [mem[pc]] never fails, and [pow] never raises. *)
Theorem run_exceptions fuel code_bytes mem_size regs_count tr e :
  run_binary_bytes fuel code_bytes mem_size regs_count = (tr, Raised e) ->
  e = ValueError_alignment \/
  e = MemoryError_too_large (len code_bytes / 4) mem_size \/
  is_out_of_bounds e \/
  (exists A, e = ValueError_unknown_opcode A).
Proof.
  intros Hrun.
  destruct (Z.eq_dec (len code_bytes mod 4) 0) as [Hal|Hal].
  2:{ rewrite run_misaligned in Hrun by done. left. congruence. }
  destruct (Z.le_gt_cases (len code_bytes / 4) mem_size) as [Hfit|Hbig].
  2:{ rewrite run_oversized in Hrun by (done || lia).
      right. left. congruence. }
  rewrite run_aligned_fits in Hrun by done.
  right. right. eapply exec_loop_raised; [| | |done]; cbn.
  - apply initial_nonneg.
  - done.
  - rewrite len_app, len_program_words, len_list_repeat by done. lia.
Qed.

(** A word-aligned binary of more words than [mem_size] raises the
    MemoryError before any instruction executes, and this is the only
    way that error arises. *)
Theorem program_too_large fuel code_bytes mem_size regs_count :
  (len code_bytes mod 4 = 0 -> mem_size < len code_bytes / 4 ->
   run_binary_bytes fuel code_bytes mem_size regs_count
   = ([], Raised (MemoryError_too_large (len code_bytes / 4) mem_size))) /\
  (forall tr a b,
     run_binary_bytes fuel code_bytes mem_size regs_count
     = (tr, Raised (MemoryError_too_large a b)) ->
     len code_bytes mod 4 = 0 /\ mem_size < len code_bytes / 4 /\ tr = []).
Proof.
  split; [apply run_oversized|].
  intros tr a b Hrun.
  destruct (Z.eq_dec (len code_bytes mod 4) 0) as [Hal|Hal].
  2:{ by rewrite run_misaligned in Hrun. }
  destruct (Z.le_gt_cases (len code_bytes / 4) mem_size) as [Hfit|Hbig].
  2:{ rewrite run_oversized in Hrun by (done || lia).
      split; [done|]. split; [lia|]. congruence. }
  rewrite run_aligned_fits in Hrun by done.
  apply exec_loop_errors in Hrun as [?|Herr]; [done|].
  by destruct Herr as [?|[[A ?]|[?|?]]].
Qed.

(** The empty program: with a non-negative [mem_size] it returns at
    once, no instruction executed, all registers and all memory zero;
    with a negative [mem_size] it raises the program-too-large
    MemoryError, 0 words being more than the memory. *)
Theorem empty_program fuel mem_size regs_count :
  (0 <= mem_size ->
   run_binary_bytes fuel [] mem_size regs_count
   = ([], Returned (mk_state (list_repeat 0 regs_count)
                             (list_repeat 0 mem_size) 0 0))) /\
  (mem_size < 0 ->
   run_binary_bytes fuel [] mem_size regs_count
   = ([], Raised (MemoryError_too_large 0 mem_size))).
Proof.
  split; intros Hm.
  - rewrite (run_aligned_fits fuel [] mem_size regs_count eq_refl Hm).
    rewrite exec_loop_halted by (vm_compute; discriminate).
    change (len [] / 4) with 0. change (program_words []) with (@nil Z).
    cbn [app]. by rewrite Z.sub_0_r.
  - by apply (run_oversized fuel [] mem_size regs_count).
Qed.

Lemma rd_insert_ne (l : list Z) (i : nat) (j v : Z) :
  i <> Z.to_nat j -> rd (<[i := v]> l) j = rd l j.
Proof. intros Hne. unfold rd. by rewrite list_lookup_insert_ne. Qed.

(** No instruction writes a register numbered 128 or more, or a memory
    cell at address 16384 or more. *)
Lemma exec_spec_high_cells w st st' r :
  exec_spec w st = (st', r) ->
  (forall i, 128 <= i -> rd (regs st') i = rd (regs st) i) /\
  (forall a, 16384 <= a -> rd (mem st') a = rd (mem st) a).
Proof.
  unfold exec_spec, pow_C. intros H.
  pose proof (fld_range w 5 7 ltac:(lia)).
  pose proof (fld_range w 12 7 ltac:(lia)).
  pose proof (fld_range w 12 14 ltac:(lia)).
  repeat case_match; simplify_eq; (split; [intros i' Hi'|intros a' Ha']);
    cbn [regs mem set_regs set_mem]; try done;
    apply rd_insert_ne; lia.
Qed.

Lemma exec_loop_high_cells fuel : forall st tr st',
  exec_loop fuel st = (tr, Returned st') ->
  (forall i, 128 <= i -> rd (regs st') i = rd (regs st) i) /\
  (forall a, 16384 <= a -> rd (mem st') a = rd (mem st) a).
Proof.
  induction fuel as [|fuel IH]; intros st tr st' Hrun.
  - cbn [exec_loop] in Hrun. case_match; by simplify_eq.
  - destruct (Z.ltb_spec (pc st) (program_len st)) as [Hlt|Hge].
    2:{ rewrite exec_loop_halted in Hrun by done. by simplify_eq. }
    rewrite exec_loop_running in Hrun by done.
    destruct (getitem (mem st) (pc st)) as [instr|e]; [|done].
    cbv zeta in Hrun. rewrite decode_and_execute_one_spec in Hrun.
    destruct (exec_spec _ _) as [st2 [[]|e]] eqn:Hdec; [|done].
    destruct (exec_loop fuel st2) as [tr' o'] eqn:Hrest. simplify_eq.
    apply IH in Hrest as [Hr Hm].
    apply exec_spec_high_cells in Hdec as [Hr2 Hm2]. cbn in Hr2, Hm2.
    split; intros x Hx; [rewrite Hr, Hr2|rewrite Hm, Hm2]; done.
Qed.

Lemma rd_list_repeat (n i : Z) : rd (list_repeat 0 n) i = 0.
Proof.
  unfold rd, list_repeat.
  destruct (repeat 0 (Z.to_nat n) !! Z.to_nat i) as [v|] eqn:Hv; [|done].
  apply list_elem_of_lookup_2, list_elem_of_In, repeat_spec in Hv. by subst.
Qed.

(** In the state a run returns, every register numbered 128 or more
    and every memory cell at an address that is at least 16384 and at
    least the program's word count still holds 0: the 7-bit register
    fields and the 14-bit address field of WRITE_MEM cannot name
    them. *)
Theorem cells_out_of_reach fuel code_bytes mem_size regs_count tr st :
  run_binary_bytes fuel code_bytes mem_size regs_count = (tr, Returned st) ->
  (forall i, 128 <= i -> rd (regs st) i = 0) /\
  (forall a, 16384 <= a -> len code_bytes / 4 <= a -> rd (mem st) a = 0).
Proof.
  intros Hrun.
  destruct (Z.eq_dec (len code_bytes mod 4) 0) as [Hal|Hal].
  2:{ by rewrite run_misaligned in Hrun. }
  destruct (Z.le_gt_cases (len code_bytes / 4) mem_size) as [Hfit|Hbig].
  2:{ by rewrite run_oversized in Hrun by (done || lia). }
  rewrite run_aligned_fits in Hrun by done.
  apply exec_loop_high_cells in Hrun as [Hr Hm]. cbn [regs mem] in Hr, Hm.
  split.
  - intros i Hi. rewrite Hr by done. apply rd_list_repeat.
  - intros a Ha Hn. rewrite Hm by done.
    pose proof (len_program_words code_bytes Hal) as Hw.
    assert (length (program_words code_bytes) <= Z.to_nat a)%nat as Hle
      by (unfold len in Hw, Hn; lia).
    unfold rd. rewrite lookup_app_r by done.
    pose proof (rd_list_repeat (mem_size - len code_bytes / 4)
                  (Z.of_nat (Z.to_nat a - length (program_words code_bytes))))
      as Hz.
    unfold rd in Hz. by rewrite Nat2Z.id in Hz.
Qed.

Lemma run_state_sizes_witness :
  exists tr st,
    run_binary_bytes 4 scenario_A_bytes 128 4 = (tr, Returned st) /\
    0 <= 128 /\ len (mem st) = 128 /\ len (regs st) = Z.max 0 4.
Proof.
  eexists _, _. split; [vm_compute; reflexivity|].
  eapply (run_state_sizes 4 scenario_A_bytes 128 4). vm_compute. reflexivity.
Defined.

Lemma run_exceptions_witness :
  ValueError_unknown_opcode 0 = ValueError_alignment \/
  ValueError_unknown_opcode 0 = MemoryError_too_large (len [x00; x00; x00; x00] / 4) 8 \/
  is_out_of_bounds (ValueError_unknown_opcode 0) \/
  (exists A, ValueError_unknown_opcode 0 = ValueError_unknown_opcode A).
Proof.
  apply (run_exceptions 1 [x00; x00; x00; x00] 8 2
           [mk_event 0 0 1]).
  vm_compute. reflexivity.
Defined.

Lemma program_too_large_witness :
  run_binary_bytes 9 scenario_A_bytes 3 32
  = ([], Raised (MemoryError_too_large (len scenario_A_bytes / 4) 3)).
Proof.
  apply (program_too_large 9 scenario_A_bytes 3 32);
    [reflexivity | vm_compute; reflexivity].
Defined.

Lemma empty_program_witness :
  run_binary_bytes 0 [] 3 2
  = ([], Returned (mk_state (list_repeat 0 2) (list_repeat 0 3) 0 0)).
Proof. apply (empty_program 0 3 2). lia. Defined.

Lemma cells_out_of_reach_witness :
  exists tr st,
    run_binary_bytes 4 scenario_A_bytes 128 200 = (tr, Returned st) /\
    rd (regs st) 150 = 0.
Proof.
  eexists _, _. split; [vm_compute; reflexivity|].
  eapply (cells_out_of_reach 4 scenario_A_bytes 128 200);
    [vm_compute; reflexivity | lia].
Defined.

End RunMore.

(* ===================================================================== *)
(** * [run_program] and the test harness                                  *)
(* ===================================================================== *)

Section ProgramMore.
Implicit Types (st : state) (fuel : nat) (code_bytes : list byte)
  (mem_size regs_count : Z).

Lemma range_step_1 (start stop : Z) :
  range start stop 1 = seqZ start (stop - start).
Proof.
  unfold range, seqZ.
  replace ((stop - start + 1 - 1) / 1) with (stop - start)
    by (rewrite Z.div_1_r; lia).
  apply map_ext. intros k. lia.
Qed.

Lemma dump_cells_in_range (m : list Z) (addrs : list Z) :
  Forall (fun a => 0 <= a < len m) addrs ->
  dump_cells m addrs = Ok (map (fun a => (a, rd m a)) addrs).
Proof.
  induction 1 as [|a addrs Ha _ IH]; [done|].
  cbn [dump_cells map]. rewrite getitem_in_range by done.
  cbn [mbind result_bind]. by rewrite IH.
Qed.

Lemma run_returned_sizes fuel code_bytes mem_size regs_count tr st :
  run_binary_bytes fuel code_bytes mem_size regs_count = (tr, Returned st) ->
  len (mem st) = mem_size.
Proof.
  intros Hrun.
  destruct (Z.eq_dec (len code_bytes mod 4) 0) as [Hal|Hal].
  2:{ by rewrite run_misaligned in Hrun. }
  destruct (Z.le_gt_cases (len code_bytes / 4) mem_size) as [Hfit|Hbig].
  2:{ by rewrite run_oversized in Hrun by (done || lia). }
  rewrite run_aligned_fits in Hrun by done.
  apply exec_loop_sizes in Hrun as [_ Hm]. cbn [mem] in Hm.
  pose proof (Z.div_pos (len code_bytes) 4 (len_nonneg _) ltac:(lia)).
  rewrite Hm, len_app, len_program_words, len_list_repeat by done. lia.
Qed.

(** After a run that returned, [run_program] with a dump path and a
    dump range writes one cell per address from start to end inclusive,
    in increasing order, each with the value memory holds there, when
    0 <= start <= end < mem_size; it raises the invalid-range ValueError
    when start is negative or end is below start, and the out-of-bounds
    IndexError when the range is well-formed but ends at or beyond
    mem_size.  The dump-range test of the GUI worker accepts exactly the
    ranges for which [run_program] writes the dump. *)
Theorem run_program_dump fuel code_bytes mem_size regs_count st
    (path : string) (start end_ : Z) :
  len code_bytes mod 4 = 0 ->
  (run_binary_bytes fuel code_bytes mem_size regs_count).2 = Returned st ->
  let outcome :=
    run_program fuel (Some code_bytes) mem_size regs_count
                (Some path) (Some (start, end_)) in
  (0 <= start <= end_ /\ end_ < mem_size ->
   outcome = ProgramReturned st
               (Some (map (fun a => (a, rd (mem st) a))
                          (seqZ start (end_ - start + 1))))) /\
  (start < 0 \/ end_ < start ->
   outcome = ProgramRaised ValueError_invalid_dump_range) /\
  (0 <= start <= end_ /\ mem_size <= end_ ->
   outcome = ProgramRaised IndexError_dump_range) /\
  (gui_range_rejected mem_size start end_ = false <->
   exists cells, outcome = ProgramReturned st (Some cells)).
Proof.
  intros Hal Hrun outcome. unfold outcome, run_program, Interpreter.INSTR_SIZE.
  rewrite Hal, Hrun. cbn [Z.eqb negb].
  destruct (run_binary_bytes fuel code_bytes mem_size regs_count)
    as [tr o] eqn:Hfull. cbn [snd] in Hrun. subst o.
  pose proof (run_returned_sizes _ _ _ _ _ _ Hfull) as Hsize.
  unfold gui_range_rejected.
  destruct (Z.ltb_spec start 0) as [Hs|Hs]; cbn [orb].
  { split; [lia|]. split; [done|]. split; [lia|].
    split; [done|]. by intros [cells ?]. }
  destruct (Z.ltb_spec end_ 0) as [He|He]; cbn [orb].
  { split; [lia|]. split; [done|]. split; [lia|].
    split; [|by intros [cells ?]].
    destruct (mem_size <=? end_); cbn [orb]; [done|].
    rewrite (proj2 (Z.ltb_lt end_ start)) by lia. done. }
  destruct (Z.ltb_spec end_ start) as [Hse|Hse].
  { split; [lia|]. split; [done|]. split; [lia|].
    rewrite orb_true_r. split; [done|]. by intros [cells ?]. }
  rewrite orb_false_r.
  destruct (Z.leb_spec mem_size end_) as [Hbig|Hfit].
  { split; [lia|]. split; [lia|]. split; [done|].
    split; [done|]. by intros [cells ?]. }
  rewrite range_step_1, dump_cells_in_range.
  2:{ apply Forall_forall. intros a Ha. apply elem_of_seqZ in Ha. lia. }
  replace (end_ + 1 - start) with (end_ - start + 1) by lia.
  split; [done|]. split; [lia|]. split; [lia|]. split; [by eauto|done].
Qed.

(** How [run_program] fails: a missing file and a misaligned file are
    reported by [run_program] itself before anything runs; an exception
    of the run is passed on whatever the dump arguments are, so a bad
    dump range is only ever reported for a program that ran to the end;
    and every exception passed on is one the run of a word-aligned file
    raised, never one from reading the cells to dump. *)
Theorem run_program_failures fuel (file : option (list byte))
    mem_size regs_count (dump_xml : option string)
    (dump_range : option (Z * Z)) :
  (file = None ->
   run_program fuel file mem_size regs_count dump_xml dump_range
   = ProgramRaised FileNotFoundError) /\
  (forall code_bytes,
     file = Some code_bytes -> len code_bytes mod 4 <> 0 ->
     run_program fuel file mem_size regs_count dump_xml dump_range
     = ProgramRaised ValueError_alignment_file) /\
  (forall code_bytes e,
     file = Some code_bytes -> len code_bytes mod 4 = 0 ->
     (run_binary_bytes fuel code_bytes mem_size regs_count).2 = Raised e ->
     run_program fuel file mem_size regs_count dump_xml dump_range
     = ProgramRaised (FromRun e)) /\
  (forall e,
     run_program fuel file mem_size regs_count dump_xml dump_range
     = ProgramRaised (FromRun e) ->
     exists code_bytes,
       file = Some code_bytes /\ len code_bytes mod 4 = 0 /\
       (run_binary_bytes fuel code_bytes mem_size regs_count).2 = Raised e).
Proof.
  unfold run_program, Interpreter.INSTR_SIZE.
  split; [by intros ->|]. split; [|split].
  - intros code_bytes -> Hal. by rewrite (proj2 (Z.eqb_neq _ _)).
  - intros code_bytes e -> Hal Hrun. by rewrite Hal, Hrun.
  - intros e H. destruct file as [code_bytes|]; [|done].
    exists code_bytes. split; [done|].
    destruct (Z.eqb_spec (len code_bytes mod 4) 0) as [Hal|Hal];
      cbn [negb] in H; [|done].
    split; [done|].
    destruct (run_binary_bytes fuel code_bytes mem_size regs_count)
      as [tr o] eqn:Hfull. cbn [snd] in H |- *.
    destruct o as [st|e'|]; [|congruence|done].
    pose proof (run_returned_sizes _ _ _ _ _ _ Hfull) as Hsize.
    destruct dump_xml as [path|]; [|done].
    destruct dump_range as [[start end_]|]; [|done].
    destruct (Z.ltb_spec start 0); cbn [orb] in H; [done|].
    destruct (Z.ltb_spec end_ 0); cbn [orb] in H; [done|].
    destruct (Z.ltb_spec end_ start); [done|].
    destruct (Z.leb_spec mem_size end_); [done|].
    rewrite range_step_1, dump_cells_in_range in H; [done|].
    apply Forall_forall. intros a Ha. apply elem_of_seqZ in Ha. lia.
Qed.

Lemma check_cells_ok (out_of_range : Z -> Z -> assertion_error)
    (mismatch : Z -> Z -> Z -> assertion_error)
    (l : list Z) (expected : list (Z * Z)) :
  check_cells out_of_range mismatch l expected = inr tt <->
  Forall (fun '(addr, val) => 0 <= addr < len l /\ rd l addr = val) expected.
Proof.
  induction expected as [|[addr val] expected IH]; cbn [check_cells].
  - split; [constructor|done].
  - rewrite Forall_cons.
    destruct (Z.ltb_spec addr 0); cbn [orb].
    { split; [done|]. intros [[? _] _]. lia. }
    destruct (Z.leb_spec (len l) addr).
    { split; [done|]. intros [[? _] _]. lia. }
    rewrite getitem_in_range by lia.
    destruct (Z.eqb_spec (rd l addr) val) as [Hv|Hv]; cbn [negb].
    + rewrite IH. split; [intros ?; split; [split; [lia|done]|done]|by intros [_ ?]].
    + split; [done|]. by intros [[_ ?] _].
Qed.

(** [assert_expected_state] passes exactly when every expected memory
    cell and every expected register names an index inside its array
    and the array holds the expected value there. *)
Theorem assert_expected_state_passes st (exp : Expectations) :
  assert_expected_state st exp = inr tt <->
  Forall (fun '(addr, val) =>
            0 <= addr < len (mem st) /\ rd (mem st) addr = val)
         (expected_mem exp) /\
  Forall (fun '(idx, val) =>
            0 <= idx < len (regs st) /\ rd (regs st) idx = val)
         (expected_reg exp).
Proof.
  unfold assert_expected_state.
  rewrite <- (check_cells_ok Mem_out_of_range Mem_mismatch).
  rewrite <- (check_cells_ok Reg_out_of_range Reg_mismatch).
  destruct (check_cells Mem_out_of_range Mem_mismatch _ _) as [e|[]].
  - split; [done|]. by intros [? _].
  - split; [intros H; by split|by intros [_ ?]].
Qed.

Lemma run_program_dump_witness :
  exists st,
    (run_binary_bytes 4 scenario_A_bytes 128 4).2 = Returned st /\
    run_program 4 (Some scenario_A_bytes) 128 4 (Some "dump.xml"%string)
                (Some (100, 101))
    = ProgramReturned st (Some [(100, 123); (101, 0)]).
Proof.
  eexists. split; [vm_compute; reflexivity|].
  eapply eq_trans.
  - refine (proj1 (run_program_dump 4 scenario_A_bytes 128 4 _ "dump.xml"
                      100 101 eq_refl _) _);
      [vm_compute; reflexivity | lia].
  - vm_compute. reflexivity.
Defined.

Lemma run_program_failures_witness :
  run_program 0 None 16 2 None None = ProgramRaised FileNotFoundError.
Proof. by apply (run_program_failures 0 None 16 2 None None). Defined.

End ProgramMore.

(* ===================================================================== *)
(** * From rows to a run                                                  *)
(* ===================================================================== *)

Section EndToEnd.
Context {ops : StrOps}.

Lemma assembled_length (irs : list ir) (bs : list byte) :
  assemble irs = Ok bs -> length bs = (4 * length irs)%nat.
Proof.
  unfold assemble. intros Hasm.
  pose proof (assemble_loop_spec irs []) as H. rewrite Hasm in H.
  destruct H as (chunks & Hall & ->). cbn [app].
  rewrite length_concat_chunks.
  - by rewrite (Forall2_length _ _ _ Hall).
  - clear Hasm. induction Hall; constructor; [|done].
    by eapply encode_instr_length.
Qed.

(** The binary assembled from translated rows is word-aligned with one
    word per row, so running it never raises the alignment error; and a
    run of it that returns has executed exactly one instruction per
    row and stops with the program counter at the row count. *)
Theorem assembled_program_runs (rows : list (list string))
    (irs : list ir) (bs : list byte) :
  to_ir rows = Ok irs ->
  assemble irs = Ok bs ->
  len bs = 4 * len rows /\
  (forall fuel mem_size regs_count,
     (run_binary_bytes fuel bs mem_size regs_count).2
     <> Raised ValueError_alignment) /\
  (forall fuel mem_size regs_count tr st,
     run_binary_bytes fuel bs mem_size regs_count = (tr, Returned st) ->
     len tr = len rows /\ pc st = len rows).
Proof.
  intros Hir Hasm.
  apply assembled_length in Hasm.
  unfold to_ir in Hir.
  apply to_ir_loop_encodes in Hir as [_ Hlen]; [|constructor]. cbn in Hlen.
  assert (len bs = 4 * len rows) as Hbs by (unfold len; lia).
  assert (len bs mod 4 = 0) as Hal.
  { rewrite Hbs, Z.mul_comm. apply Z.mod_mul. lia. }
  assert (len bs / 4 = len rows) as Hn.
  { rewrite Hbs, Z.mul_comm. apply Z.div_mul. lia. }
  split; [done|]. split.
  - intros fuel mem_size regs_count.
    destruct (Z.le_gt_cases (len bs / 4) mem_size) as [Hfit|Hbig].
    2:{ by rewrite run_oversized by (done || lia). }
    rewrite run_aligned_fits by done.
    destruct (exec_loop fuel _) as [tr o] eqn:Hloop. cbn [snd]. intros ->.
    apply exec_loop_errors in Hloop as [?|Herr]; [done|].
    by destruct Herr as [?|[[A ?]|[?|?]]].
  - intros fuel mem_size regs_count tr st Hrun.
    destruct (Z.le_gt_cases (len bs / 4) mem_size) as [Hfit|Hbig].
    2:{ by rewrite run_oversized in Hrun by (done || lia). }
    rewrite run_aligned_fits in Hrun by done.
    apply exec_loop_trace in Hrun as (_ & _ & Hret).
    destruct (Hret st eq_refl) as (_ & Hpc & Htr). cbn in Hpc, Htr.
    pose proof (len_nonneg rows). lia.
Qed.
End EndToEnd.

Lemma assembled_program_runs_witness :
  len scenario_A_bytes = 4 * len scenario_A.
Proof.
  destruct (@to_ir ascii_str_ops scenario_A) as [irs|] eqn:Hir;
    [|vm_compute in Hir; discriminate].
  refine (proj1 (@assembled_program_runs ascii_str_ops scenario_A irs
                   scenario_A_bytes Hir _)).
  vm_compute in Hir. injection Hir as <-. vm_compute. reflexivity.
Defined.
